(** * extract_text.py: a model of the OCR orchestration layer

    The program locates image files, hands each one to an external OCR
    engine and writes the collected results to the console, to a JSON file
    or to one text file per image.  This development embeds the Python
    source (src/extract_text.py) in Rocq: Python strings, pathlib paths, a
    filesystem, exceptions with [try]/[except], the mutable result
    dictionary, and the four operations of the program
    ([extract_text_from_image], [find_images_in_directory],
    [batch_extract_text], [save_results]) together with [main]. *)

From Stdlib Require Import Ascii String.
From Stdlib Require Import List NArith ZArith Bool Lia.
From Stdlib Require Decimal DecimalN DecimalZ DecimalFacts.
Import ListNotations.

Set Implicit Arguments.

(* ================================================================== *)
(** * Python strings *)
(* ================================================================== *)

(** A Python [str] is a sequence of Unicode code points.  The text of a
    file is kept as the [str] that was written to it: UTF-8 encodes and
    decodes every text without a lone surrogate, and a text with a lone
    surrogate is refused when it is written (see [encodable]). *)
Definition char := N.
Definition str := list char.

(** ASCII literals of the source are written [lit "..."]. *)
Definition lit (s : string) : str := map N_of_ascii (list_ascii_of_string s).

Fixpoint str_eqb (a b : str) : bool :=
  match a, b with
  | [], [] => true
  | x :: a', y :: b' => N.eqb x y && str_eqb a' b'
  | _, _ => false
  end.

Definition str_in (s : str) (l : list str) : bool := existsb (str_eqb s) l.

(** [str.lower()] and [str.upper()].  Only the ASCII letters are mapped:
    the strings compared against in this program are ASCII (the supported
    suffixes), and no code point outside ASCII lowers to one of their
    letters, so membership tests agree with Python's. *)
Definition lower_char (c : char) : char :=
  if (N.leb 65 c && N.leb c 90)%bool then (c + 32)%N else c.
Definition upper_char (c : char) : char :=
  if (N.leb 97 c && N.leb c 122)%bool then (c - 32)%N else c.
Definition lower (s : str) : str := map lower_char s.
Definition upper (s : str) : str := map upper_char s.

(** The code points [str.isspace()] accepts, which [str.strip()] removes. *)
Definition isspace (c : char) : bool :=
  ((N.leb 9 c && N.leb c 13) || (N.leb 28 c && N.leb c 32)
   || N.eqb c 133 || N.eqb c 160 || N.eqb c 5760
   || (N.leb 8192 c && N.leb c 8202)
   || N.eqb c 8232 || N.eqb c 8233 || N.eqb c 8239 || N.eqb c 8287
   || N.eqb c 12288)%bool.

Fixpoint lstrip (s : str) : str :=
  match s with
  | c :: s' => if isspace c then lstrip s' else s
  | [] => []
  end.
Definition rstrip (s : str) : str := rev (lstrip (rev s)).
Definition strip (s : str) : str := rstrip (lstrip s).

Fixpoint startswith (s p : str) {struct p} : bool :=
  match p, s with
  | [], _ => true
  | y :: p', x :: s' => N.eqb x y && startswith s' p'
  | _ :: _, [] => false
  end.
Definition endswith (s suf : str) : bool := startswith (rev s) (rev suf).

(** [sep.join(l)] *)
Fixpoint join (sep : str) (l : list str) : str :=
  match l with
  | [] => []
  | [x] => x
  | x :: l' => x ++ sep ++ join sep l'
  end.

(** ['c' * n] *)
Definition repeat_char (c : char) (n : nat) : str := repeat c n.

(** Decimal rendering of a number, as [str(n)] and f-strings do. *)
Fixpoint digits_of_uint (d : Decimal.uint) : str :=
  match d with
  | Decimal.Nil => []
  | Decimal.D0 d' => 48%N :: digits_of_uint d'
  | Decimal.D1 d' => 49%N :: digits_of_uint d'
  | Decimal.D2 d' => 50%N :: digits_of_uint d'
  | Decimal.D3 d' => 51%N :: digits_of_uint d'
  | Decimal.D4 d' => 52%N :: digits_of_uint d'
  | Decimal.D5 d' => 53%N :: digits_of_uint d'
  | Decimal.D6 d' => 54%N :: digits_of_uint d'
  | Decimal.D7 d' => 55%N :: digits_of_uint d'
  | Decimal.D8 d' => 56%N :: digits_of_uint d'
  | Decimal.D9 d' => 57%N :: digits_of_uint d'
  end.
Definition str_of_N (n : N) : str := digits_of_uint (N.to_uint n).
Definition str_of_nat (n : nat) : str := str_of_N (N.of_nat n).
Definition str_of_Z (z : Z) : str :=
  match z with
  | Zneg p => 45%N :: str_of_N (Npos p)
  | _ => str_of_N (Z.to_N z)
  end.

(** Lexicographic order on code points, Python's [<] on [str]. *)
Fixpoint str_compare (a b : str) : comparison :=
  match a, b with
  | [], [] => Eq
  | [], _ :: _ => Lt
  | _ :: _, [] => Gt
  | x :: a', y :: b' =>
      match N.compare x y with
      | Eq => str_compare a' b'
      | c => c
      end
  end.

(* ================================================================== *)
(** * pathlib *)
(* ================================================================== *)

(** A [PurePosixPath]: whether it is anchored at the root, and its
    components.  Parsing drops empty and ['.'] components and keeps
    ['..'], as pathlib does.  (The root written with exactly two slashes,
    which POSIX keeps apart, is read as the ordinary root.) *)
Record Path := mkPath { is_abs : bool; parts : list str }.

Definition slash : char := 47%N.
Definition dot : char := 46%N.

(** [s.split('/')] *)
Fixpoint split_slash (s : str) : list str :=
  match s with
  | [] => [[]]
  | c :: s' =>
      if N.eqb c slash then [] :: split_slash s'
      else match split_slash s' with
           | w :: ws => (c :: w) :: ws
           | [] => [[c]]
           end
  end.

Definition keep_part (p : str) : bool :=
  negb (str_eqb p [] || str_eqb p [dot]).

(** [Path(s)] *)
Definition Path_of_str (s : str) : Path :=
  {| is_abs := match s with c :: _ => N.eqb c slash | [] => false end;
     parts := filter keep_part (split_slash s) |}.

(** [str(p)] *)
Definition str_of_Path (p : Path) : str :=
  match parts p with
  | [] => if is_abs p then [slash] else [dot]
  | ps => (if is_abs p then [slash] else []) ++ join [slash] ps
  end.

(** [p.name]: the final component, [''] when there is none. *)
Definition name (p : Path) : str := last (parts p) [].

(** [s.rfind('.')], as an index from the left; [None] for -1. *)
Fixpoint rfind_dot (s : str) : option nat :=
  match s with
  | [] => None
  | c :: s' =>
      match rfind_dot s' with
      | Some i => Some (S i)
      | None => if N.eqb c dot then Some 0 else None
      end
  end.

(** [p.suffix]: [name[i:]] when [0 < i < len(name) - 1] for the last dot
    [i] of the name, [''] otherwise. *)
Definition suffix_of_name (nm : str) : str :=
  match rfind_dot nm with
  | Some i => if (Nat.ltb 0 i && Nat.ltb (S i) (length nm))%bool
              then skipn i nm else []
  | None => []
  end.
Definition suffix (p : Path) : str := suffix_of_name (name p).

(** [p.stem]: the name without its suffix. *)
Definition stem_of_name (nm : str) : str :=
  match rfind_dot nm with
  | Some i => if (Nat.ltb 0 i && Nat.ltb (S i) (length nm))%bool
              then firstn i nm else nm
  | None => nm
  end.
Definition stem (p : Path) : str := stem_of_name (name p).

(** [p / q]: an absolute right operand replaces the left one. *)
Definition joinpath (p q : Path) : Path :=
  if is_abs q then q else {| is_abs := is_abs p; parts := parts p ++ parts q |}.

(** Order on paths: by anchor, then component by component. *)
Fixpoint parts_compare (a b : list str) : comparison :=
  match a, b with
  | [], [] => Eq
  | [], _ :: _ => Lt
  | _ :: _, [] => Gt
  | x :: a', y :: b' =>
      match str_compare x y with
      | Eq => parts_compare a' b'
      | c => c
      end
  end.
Definition Path_leb (p q : Path) : bool :=
  match is_abs p, is_abs q with
  | false, true => true
  | true, false => false
  | _, _ => match parts_compare (parts p) (parts q) with Gt => false | _ => true end
  end.

(** [sorted(l)] on paths: a stable insertion sort. *)
Fixpoint insert_sorted (p : Path) (l : list Path) : list Path :=
  match l with
  | [] => [p]
  | q :: l' => if Path_leb p q then p :: l else q :: insert_sorted p l'
  end.
Definition sorted (l : list Path) : list Path := fold_right insert_sorted [] l.


(* ================================================================== *)
(** * Python values and dictionaries *)
(* ================================================================== *)

(** The values the result dictionaries hold.  A [dict] keeps its keys in
    insertion order, which is the order [json.dump] writes them in. *)
Unset Elimination Schemes.
Inductive value : Type :=
| VNone
| VBool (b : bool)
| VInt (z : Z)
| VStr (s : str)
| VTuple (items : list value)
| VList (items : list value)
| VDict (entries : list (str * value)).
Set Elimination Schemes.

Definition dict := list (str * value).

(** [bool(v)] *)
Definition truthy (v : value) : bool :=
  match v with
  | VNone => false
  | VBool b => b
  | VInt z => negb (Z.eqb z 0)
  | VStr s => negb (str_eqb s [])
  | VTuple l | VList l => match l with [] => false | _ => true end
  | VDict d => match d with [] => false | _ => true end
  end.

(** Association lists with first-match lookup and in-place update; they
    model both dictionaries and directory listings. *)
Fixpoint alist_get {A} (d : list (str * A)) (k : str) : option A :=
  match d with
  | [] => None
  | (k', v) :: d' => if str_eqb k' k then Some v else alist_get d' k
  end.

Fixpoint alist_set {A} (d : list (str * A)) (k : str) (v : A) : list (str * A) :=
  match d with
  | [] => [(k, v)]
  | (k', v') :: d' =>
      if str_eqb k' k then (k', v) :: d' else (k', v') :: alist_set d' k v
  end.

Definition dict_get (d : dict) (k : str) : option value := alist_get d k.

(** [d[k] = v]: an existing key keeps its position. *)
Definition dict_set (d : dict) (k : str) (v : value) : dict := alist_set d k v.

(** [d.update(u)] *)
Definition dict_update (d u : dict) : dict :=
  fold_left (fun acc kv => dict_set acc (fst kv) (snd kv)) u d.

(* ================================================================== *)
(** * Exceptions *)
(* ================================================================== *)

(** The classes of exception that occur; all derive from [Exception], so
    [except Exception] catches each of them.  [OtherException] stands for
    whatever else the imaging library or the OCR engine raises. *)
Inductive exn_class : Type :=
| FileNotFoundError
| ValueError
| IsADirectoryError
| NotADirectoryError
| FileExistsError
| KeyError
| TypeError
| OtherException (class_name : str).

(** An exception object: its class and [str(e)]. *)
Record exn := mkExn { exn_cls : exn_class; exn_str : str }.

Inductive outcome (A : Type) : Type :=
| Returns (a : A)
| Raises (e : exn).
Arguments Returns {A} a.
Arguments Raises {A} e.

(* ================================================================== *)
(** * Computations: state passing with exceptions *)
(* ================================================================== *)

(** A computation over a state [S] either returns a value or raises, and
    leaves a new state in both cases. *)
Definition M (S A : Type) : Type := S -> outcome A * S.

Definition ret {S A} (a : A) : M S A := fun s => (Returns a, s).

Definition bind {S A B} (m : M S A) (k : A -> M S B) : M S B :=
  fun s =>
    match m s with
    | (Returns a, s') => k a s'
    | (Raises e, s') => (Raises e, s')
    end.

Definition raise {S A} (e : exn) : M S A := fun s => (Raises e, s).

(** [try: body except Exception as e: handler(e)] *)
Definition try_except {S A} (body : M S A) (handler : exn -> M S A) : M S A :=
  fun s =>
    match body s with
    | (Returns a, s') => (Returns a, s')
    | (Raises e, s') => handler e s'
    end.

Definition modify {S} (f : S -> S) : M S unit := fun s => (Returns tt, f s).

Declare Scope monad_scope.
Delimit Scope monad_scope with monad.
Notation "x <- m ;; k" := (bind m (fun x => k))
  (at level 61, m at next level, right associativity) : monad_scope.
Notation "m ;; k" := (bind m (fun _ => k))
  (at level 61, right associativity) : monad_scope.
Open Scope monad_scope.

(** [if c: m] *)
Definition when {S} (c : bool) (m : M S unit) : M S unit :=
  if c then m else ret tt.

(** [for x in l: body(x)]: the loop stops at the first exception. *)
Fixpoint for_each {S A} (l : list A) (body : A -> M S unit) : M S unit :=
  match l with
  | [] => ret tt
  | x :: l' => body x ;; for_each l' body
  end.

(** A computation over the outer state run inside one that also carries a
    local variable of type [L]. *)
Definition lift {S L A} (m : M S A) : M (L * S) A :=
  fun ls =>
    match m (snd ls) with
    | (o, s') => (o, (fst ls, s'))
    end.

(** Read and write the local variable. *)
Definition get_local {S L} : M (L * S) L := fun ls => (Returns (fst ls), ls).
Definition set_local {S L} (f : L -> L) : M (L * S) unit :=
  fun ls => (Returns tt, (f (fst ls), snd ls)).

(** Run a computation with a local variable initialised to [l0]. *)
Definition with_local {S L A} (l0 : L) (m : M (L * S) A) : M S A :=
  fun s =>
    match m (l0, s) with
    | (o, (_, s')) => (o, s')
    end.

(* ================================================================== *)
(** * The filesystem *)
(* ================================================================== *)

(** A filesystem is a tree of directories and files; a directory lists its
    entries in the order the operating system enumerates them. *)
Unset Elimination Schemes.
Inductive node : Type :=
| File (content : str)
| Dir (entries : list (str * node)).
Set Elimination Schemes.

(** The node at a canonical location (a list of names from the root). *)
Fixpoint lookup (n : node) (p : list str) : option node :=
  match p with
  | [] => Some n
  | c :: p' =>
      match n with
      | Dir es => match alist_get es c with
                  | Some n' => lookup n' p'
                  | None => None
                  end
      | File _ => None
      end
  end.

(** Put [new] at location [p]; the parent of [p] has to be a directory,
    otherwise the tree is left as it is. *)
Fixpoint update (n : node) (p : list str) (new : node) : node :=
  match p with
  | [] => new
  | c :: p' =>
      match n with
      | Dir es =>
          match p', alist_get es c with
          | [], _ => Dir (alist_set es c new)
          | _ :: _, Some n' => Dir (alist_set es c (update n' p' new))
          | _ :: _, None => n
          end
      | File _ => n
      end
  end.

(** Whether an entry can be created at [q]: its parent is a directory. *)
Definition parent_is_dir (root : node) (q : list str) : bool :=
  match q with
  | [] => false
  | _ :: _ =>
      match lookup root (removelast q) with
      | Some (Dir _) => true
      | _ => false
      end
  end.

(** Resolving the components of a path from a starting location: every
    component is taken in a directory (else [ENOTDIR] or [ENOENT]), and
    ['..'] steps to the parent. *)
Inductive resolved : Type :=
| Found (q : list str)
| NoEnt
| NotDir.

Definition dotdot : str := [dot; dot].

Fixpoint walk (root : node) (cur : list str) (comps : list str) : resolved :=
  match comps with
  | [] => Found cur
  | c :: cs =>
      match lookup root cur with
      | Some (Dir _) =>
          if str_eqb c dotdot then walk root (removelast cur) cs
          else walk root (cur ++ [c]) cs
      | Some (File _) => NotDir
      | None => NoEnt
      end
  end.

(** [Path.glob] with the pattern ['*' + suf]: the entries of a directory
    whose name ends with [suf].  The match is case-sensitive (POSIX) and
    hidden names are not skipped. *)
Definition glob_here (n : node) (pref : list str) (suf : str) : list (list str) :=
  match n with
  | File _ => []
  | Dir es =>
      map (fun e => pref ++ [fst e]) (filter (fun e => endswith (fst e) suf) es)
  end.

(** [Path.glob] with the pattern ['**/*' + suf]: the matching entries of
    the directory itself, then those of every subdirectory in turn. *)
Fixpoint glob_rec (n : node) (pref : list str) (suf : str) : list (list str) :=
  match n with
  | File _ => []
  | Dir es =>
      map (fun e => pref ++ [fst e]) (filter (fun e => endswith (fst e) suf) es)
      ++ (fix subdirs (l : list (str * node)) : list (list str) :=
            match l with
            | [] => []
            | (c, m) :: l' => glob_rec m (pref ++ [c]) suf ++ subdirs l'
            end) es
  end.

(** Images as the imaging library presents them. *)
Record Image := mkImage { size : Z * Z; mode : str; pixels : list N }.

Inductive level : Type := DEBUG | INFO | WARNING | ERROR.

(** What the program can observe and change: the filesystem, the working
    directory, what was printed and what was logged.

    [refusal] stands for the errors with which the operating system
    refuses to look at a path for a reason other than a missing entry: a
    name or a path that is too long ([ENAMETOOLONG]), a directory of the
    path that the process may not search ([EACCES]), and the like.  It
    gives the [OSError] raised for such a path, and [None] for the paths
    that are looked up in the tree.  Every system call on a path raises
    this error; [Path.exists], [Path.is_file] and [Path.is_dir] let it
    through, where they answer [False] for a missing entry ([ENOENT],
    [ENOTDIR]).  The objects found in the tree can be read and written by
    the process, and the tree has no symbolic links. *)
Record World := mkWorld {
  fs : node;
  cwd : list str;
  stdout : list str;
  log : list (level * str);
  refusal : Path -> option exn
}.

Definition set_fs (w : World) (n : node) : World :=
  {| fs := n; cwd := cwd w; stdout := stdout w; log := log w;
     refusal := refusal w |}.

Definition resolve (w : World) (p : Path) : resolved :=
  walk (fs w) (if is_abs p then [] else cwd w) (parts p).

(** [os.stat(p)], where it succeeds. *)
Definition stat (w : World) (p : Path) : option node :=
  match refusal w p with
  | Some _ => None
  | None =>
      match resolve w p with
      | Found q => lookup (fs w) q
      | _ => None
      end
  end.

(* ================================================================== *)
(** * Encoding text *)
(* ================================================================== *)

(** The standard output and the files the program opens encode text as
    UTF-8 and are strict about errors: a text with a lone surrogate
    (which [os.fsdecode] puts into a file name for a byte that is not
    UTF-8) cannot be written, and [write] raises [UnicodeEncodeError]. *)
Definition is_surrogate (c : char) : bool := (N.leb 55296 c && N.leb c 57343)%bool.

Definition encodable (s : str) : bool := forallb (fun c => negb (is_surrogate c)) s.

(** One lower-case hexadecimal digit. *)
Definition hex_digit (n : N) : char :=
  if N.ltb n 10 then (48 + n)%N else (87 + n)%N.

(** The index of the first surrogate of a text, with the text from there
    on, and the length of the run of surrogates a text starts with. *)
Fixpoint first_surrogate (s : str) (i : nat) : option (nat * str) :=
  match s with
  | [] => None
  | c :: s' => if is_surrogate c then Some (i, s) else first_surrogate s' (S i)
  end.

Fixpoint surrogate_run (s : str) : nat :=
  match s with
  | c :: s' => if is_surrogate c then S (surrogate_run s') else 0
  | [] => 0
  end.

Definition UnicodeEncodeError : exn_class := OtherException (lit "UnicodeEncodeError").

(** [str(e)] for the [UnicodeEncodeError] of the UTF-8 codec: it names
    the first run of surrogates. *)
Definition encode_error_message (s : str) : str :=
  match first_surrogate s 0 with
  | Some (i, c :: rest) =>
      if Nat.eqb (surrogate_run (c :: rest)) 1
      then lit "'utf-8' codec can't encode character '" ++ [92%N; 117%N]
           ++ [ hex_digit (N.div c 4096); hex_digit (N.modulo (N.div c 256) 16);
                hex_digit (N.modulo (N.div c 16) 16); hex_digit (N.modulo c 16) ]
           ++ lit "' in position " ++ str_of_nat i ++ lit ": surrogates not allowed"
      else lit "'utf-8' codec can't encode characters in position " ++ str_of_nat i
           ++ lit "-" ++ str_of_nat (i + surrogate_run (c :: rest) - 1)
           ++ lit ": surrogates not allowed"
  | _ => []
  end.

Definition encode_error (s : str) : exn :=
  mkExn UnicodeEncodeError (encode_error_message s).

(* ================================================================== *)
(** * json.dump(obj, f, indent=2, ensure_ascii=False) *)
(* ================================================================== *)

Definition backslash : char := 92%N.
Definition dquote : char := 34%N.
Definition newline : char := 10%N.
Definition space : char := 32%N.

(** [ESCAPE_DCT] of [json.encoder]: the quote, the backslash and the
    control characters are escaped; with [ensure_ascii=False] every other
    code point, non-ASCII included, is written as it is. *)
Definition escape_char (c : char) : str :=
  if N.eqb c dquote then [backslash; dquote]
  else if N.eqb c backslash then [backslash; backslash]
  else if N.eqb c 8 then [backslash; 98%N]
  else if N.eqb c 12 then [backslash; 102%N]
  else if N.eqb c 10 then [backslash; 110%N]
  else if N.eqb c 13 then [backslash; 114%N]
  else if N.eqb c 9 then [backslash; 116%N]
  else if N.ltb c 32 then
    [backslash; 117%N; 48%N; 48%N; hex_digit (N.div c 16); hex_digit (N.modulo c 16)]
  else [c].

(** [encode_basestring(s)] *)
Definition encode_basestring (s : str) : str :=
  dquote :: flat_map escape_char s ++ [dquote].

(** ['\n' + ' ' * (2 * level)] *)
Definition newline_indent (lvl : nat) : str := newline :: repeat space (2 * lvl).

(** [_iterencode(o, level)], with the chunks concatenated.  Lists and
    tuples are both written as JSON arrays. *)
Fixpoint iterencode (o : value) (lvl : nat) : str :=
  match o with
  | VStr s => encode_basestring s
  | VNone => lit "null"
  | VBool true => lit "true"
  | VBool false => lit "false"
  | VInt z => str_of_Z z
  | VTuple l | VList l =>
      match l with
      | [] => lit "[]"
      | _ :: _ =>
          lit "[" ++ newline_indent (S lvl)
          ++ (fix items (l : list value) (first : bool) : str :=
                match l with
                | [] => []
                | x :: l' =>
                    (if first then [] else lit "," ++ newline_indent (S lvl))
                    ++ iterencode x (S lvl) ++ items l' false
                end) l true
          ++ newline_indent lvl ++ lit "]"
      end
  | VDict d =>
      match d with
      | [] => lit "{}"
      | _ :: _ =>
          lit "{" ++ newline_indent (S lvl)
          ++ (fix items (l : list (str * value)) (first : bool) : str :=
                match l with
                | [] => []
                | (k, v) :: l' =>
                    (if first then [] else lit "," ++ newline_indent (S lvl))
                    ++ encode_basestring k ++ lit ": "
                    ++ iterencode v (S lvl) ++ items l' false
                end) d true
          ++ newline_indent lvl ++ lit "}"
      end
  end.

(** The text [json.dump] writes for a list of result dictionaries. *)
Definition json_dumps (results : list dict) : str :=
  iterencode (VList (map VDict results)) 0.

(** The chunks [_iterencode(o, level)] yields; [json.dump] hands each of
    them to [f.write].  In a list a string, a number, [None] or a boolean
    comes in one chunk with the separator before it; in a dictionary the
    separator, the key, the colon and such a value are chunks of their
    own. *)
Fixpoint iterencode_chunks (o : value) (lvl : nat) : list str :=
  match o with
  | VStr s => [encode_basestring s]
  | VNone => [lit "null"]
  | VBool true => [lit "true"]
  | VBool false => [lit "false"]
  | VInt z => [str_of_Z z]
  | VTuple l | VList l =>
      match l with
      | [] => [lit "[]"]
      | _ :: _ =>
          (fix items (l : list value) (buf : str) : list str :=
             match l with
             | [] => []
             | x :: l' =>
                 match x with
                 | VTuple _ | VList _ | VDict _ => buf :: iterencode_chunks x (S lvl)
                 | _ => [buf ++ iterencode x (S lvl)]
                 end
                 ++ items l' (lit "," ++ newline_indent (S lvl))
             end) l (lit "[" ++ newline_indent (S lvl))
          ++ [newline_indent lvl; lit "]"]
      end
  | VDict d =>
      match d with
      | [] => [lit "{}"]
      | _ :: _ =>
          [lit "{"; newline_indent (S lvl)]
          ++ (fix items (l : list (str * value)) (first : bool) : list str :=
                match l with
                | [] => []
                | (k, v) :: l' =>
                    (if first then [] else [lit "," ++ newline_indent (S lvl)])
                    ++ [encode_basestring k; lit ": "]
                    ++ iterencode_chunks v (S lvl) ++ items l' false
                end) d true
          ++ [newline_indent lvl; lit "}"]
      end
  end.

Definition json_chunks (results : list dict) : list str :=
  iterencode_chunks (VList (map VDict results)) 0.

(** The chunks that are written before one cannot be encoded, and that
    one. *)
Fixpoint encoded_prefix (chunks : list str) : list str * option str :=
  match chunks with
  | [] => ([], None)
  | c :: cs =>
      if encodable c
      then let rest := encoded_prefix cs in (c :: fst rest, snd rest)
      else ([], Some c)
  end.

(* ================================================================== *)
(** * The program *)
(* ================================================================== *)

Section Program.

(** The external collaborators.  [repr_str] is Python's [repr] on [str];
    [decode] is the imaging library reading a file's content (the path is
    only used in its messages); [convert_pixels] computes the pixels of
    [img.convert(mode)]; [ocr] is the OCR engine called with an image and
    a configuration string.  The last three may raise. *)
Variable repr_str : str -> str.
Variable decode : Path -> str -> outcome Image.
Variable convert_pixels : Image -> str -> outcome (list N).
Variable ocr : Image -> str -> outcome str.

(** [repr(v)] and [str(v)] *)
Fixpoint py_repr (v : value) : str :=
  match v with
  | VNone => lit "None"
  | VBool true => lit "True"
  | VBool false => lit "False"
  | VInt z => str_of_Z z
  | VStr s => repr_str s
  | VTuple l =>
      lit "("
      ++ join (lit ", ")
           ((fix reprs (l : list value) : list str :=
               match l with [] => [] | x :: l' => py_repr x :: reprs l' end) l)
      ++ (match l with [_] => lit "," | _ => [] end) ++ lit ")"
  | VList l =>
      lit "["
      ++ join (lit ", ")
           ((fix reprs (l : list value) : list str :=
               match l with [] => [] | x :: l' => py_repr x :: reprs l' end) l)
      ++ lit "]"
  | VDict d =>
      lit "{"
      ++ join (lit ", ")
           ((fix reprs (l : list (str * value)) : list str :=
               match l with
               | [] => []
               | (k, x) :: l' => (repr_str k ++ lit ": " ++ py_repr x) :: reprs l'
               end) d)
      ++ lit "}"
  end.

Definition py_str (v : value) : str :=
  match v with
  | VStr s => s
  | _ => py_repr v
  end.

(** ** Operations on the world *)

(** An [OSError] raised by the operating system for a path. *)
Definition os_error (cls : exn_class) (what : str) (p : Path) : exn :=
  mkExn cls (what ++ lit ": " ++ repr_str (str_of_Path p)).
Definition ENOENT (p : Path) : exn :=
  os_error FileNotFoundError (lit "[Errno 2] No such file or directory") p.
Definition EEXIST (p : Path) : exn :=
  os_error FileExistsError (lit "[Errno 17] File exists") p.
Definition ENOTDIR (p : Path) : exn :=
  os_error NotADirectoryError (lit "[Errno 20] Not a directory") p.
Definition EISDIR (p : Path) : exn :=
  os_error IsADirectoryError (lit "[Errno 21] Is a directory") p.

(** [p.exists()]: [False] for a missing entry; any other [OSError] of
    [os.stat] is raised again. *)
Definition path_exists (p : Path) : M World bool :=
  fun w =>
    match refusal w p with
    | Some e => (Raises e, w)
    | None => (Returns (match stat w p with Some _ => true | None => false end), w)
    end.

(** [p.is_file()], with the same treatment of errors. *)
Definition path_is_file (p : Path) : M World bool :=
  fun w =>
    match refusal w p with
    | Some e => (Raises e, w)
    | None =>
        (Returns (match stat w p with Some (File _) => true | _ => false end), w)
    end.

(** The two patterns the locator builds: ['*' + suf] and ['**/*' + suf]. *)
Inductive glob_pattern : Type :=
| Star (suf : str)
| StarStarSlashStar (suf : str).

(** [directory.glob(pattern)], consumed at once as [list.extend] does.
    The selector starts with [directory.is_dir()]: nothing is yielded, and
    nothing raised, when [directory] is missing or is not a directory, and
    the error of a refused path is raised.  The directories below an
    accepted [directory] are listed without error. *)
Definition Path_glob (directory : Path) (pattern : glob_pattern) : M World (list Path) :=
  fun w =>
    match refusal w directory with
    | Some e => (Raises e, w)
    | None =>
        (Returns
           (match stat w directory with
            | Some n =>
                map (mkPath (is_abs directory))
                    (match pattern with
                     | Star suf => glob_here n (parts directory) suf
                     | StarStarSlashStar suf => glob_rec n (parts directory) suf
                     end)
            | None => []
            end), w)
    end.

(** [p.mkdir(exist_ok=True)] *)
Definition Path_mkdir_exist_ok (p : Path) : M World unit :=
  fun w =>
    match refusal w p with
    | Some e => (Raises e, w)
    | None =>
        match resolve w p with
        | Found q =>
            match lookup (fs w) q with
            | Some (Dir _) => (Returns tt, w)
            | Some (File _) => (Raises (EEXIST p), w)
            | None =>
                if parent_is_dir (fs w) q
                then (Returns tt, set_fs w (update (fs w) q (Dir [])))
                else (Raises (ENOENT p), w)
            end
        | NoEnt => (Raises (ENOENT p), w)
        | NotDir => (Raises (ENOTDIR p), w)
        end
    end.

(** [with open(p, 'w', encoding='utf-8') as f: ...], where the block
    writes [content] and then ends normally ([failure] is [None]) or with
    an exception: the file is created or replaced, it holds what was
    written when it is closed, and the exception of the block goes on.
    Opening a directory, a path whose parent is missing or a refused path
    raises, and the block is not entered. *)
Definition write_file (p : Path) (content : str) (failure : option exn)
  : M World unit :=
  fun w =>
    let written q :=
      (match failure with Some e => Raises e | None => Returns tt end,
       set_fs w (update (fs w) q (File content))) in
    match refusal w p with
    | Some e => (Raises e, w)
    | None =>
        match resolve w p with
        | Found q =>
            match lookup (fs w) q with
            | Some (Dir _) => (Raises (EISDIR p), w)
            | Some (File _) => written q
            | None =>
                if parent_is_dir (fs w) q
                then written q
                else (Raises (ENOENT p), w)
            end
        | NoEnt => (Raises (ENOENT p), w)
        | NotDir => (Raises (ENOTDIR p), w)
        end
    end.

(** The block [f.write(content)]: a text that cannot be encoded leaves the
    file empty. *)
Definition write_text (p : Path) (content : str) : M World unit :=
  if encodable content
  then write_file p content None
  else write_file p [] (Some (encode_error content)).

(** The block [json.dump(obj, f, ...)], which writes the chunks one by
    one: the file holds those before the first that cannot be encoded. *)
Definition write_chunks (p : Path) (chunks : list str) : M World unit :=
  write_file p (concat (fst (encoded_prefix chunks)))
    (match snd (encoded_prefix chunks) with
     | Some c => Some (encode_error c)
     | None => None
     end).

(** [Image.open(p)].  Used in a [with] statement: leaving the block closes
    the file and raises nothing. *)
Definition Image_open (p : Path) : M World Image :=
  fun w =>
    match refusal w p with
    | Some e => (Raises e, w)
    | None =>
        match resolve w p with
        | Found q =>
            match lookup (fs w) q with
            | Some (File content) => (decode p content, w)
            | Some (Dir _) => (Raises (EISDIR p), w)
            | None => (Raises (ENOENT p), w)
            end
        | NoEnt => (Raises (ENOENT p), w)
        | NotDir => (Raises (ENOTDIR p), w)
        end
    end.

(** [img.convert(m)]: an image of the same size in the mode asked for. *)
Definition Image_convert (img : Image) (m : str) : M World Image :=
  fun w =>
    match convert_pixels img m with
    | Returns px => (Returns {| size := size img; mode := m; pixels := px |}, w)
    | Raises e => (Raises e, w)
    end.

(** [pytesseract.image_to_string(img, config=config)] *)
Definition image_to_string (img : Image) (config : str) : M World str :=
  fun w => (ocr img config, w).

(** [print(s)]: the line is written to the standard output, an open
    stream; a line that cannot be encoded raises and nothing of it is
    written. *)
Definition print (s : str) : M World unit :=
  fun w =>
    if encodable s
    then (Returns tt,
          {| fs := fs w; cwd := cwd w; stdout := stdout w ++ [s]; log := log w;
             refusal := refusal w |})
    else (Raises (encode_error s), w).

(** [logger.info], [logger.warning], [logger.error]: the logging module
    does not raise, whatever the message (a handler that fails reports it
    on the standard error and goes on). *)
Definition logger_log (l : level) (msg : str) : M World unit :=
  modify (fun w => {| fs := fs w; cwd := cwd w; stdout := stdout w;
                      log := log w ++ [(l, msg)]; refusal := refusal w |}).
Definition logger_info := logger_log INFO.
Definition logger_warning := logger_log WARNING.
Definition logger_error := logger_log ERROR.

(** [d[k]], raising [KeyError] for a missing key. *)
Definition getitem {S} (d : dict) (k : str) : M S value :=
  match dict_get d k with
  | Some v => ret v
  | None => raise (mkExn KeyError (repr_str k))
  end.

(** ** class ImageTextExtractor *)

Record ImageTextExtractor := mkExtractor {
  tesseract_config : str;
  supported_formats : list str
}.

(** [__init__(self, tesseract_config)].  The supported formats are a set
    in the source; they are listed here in the order they are written,
    and the one place that iterates over them sorts what it collects. *)
Definition init (config : str) : ImageTextExtractor :=
  {| tesseract_config := config;
     supported_formats :=
       [lit ".jpg"; lit ".jpeg"; lit ".png"; lit ".tiff"; lit ".bmp"; lit ".gif"] |}.

Definition default_config : str := lit "--oem 3 --psm 6".

Definition RGB : str := lit "RGB".

(** [extract_text_from_image(self, image_path)].  [result] is the local
    dictionary the method builds, updates inside [try] and completes in
    the [except] clause. *)
Definition extract_text_from_image (self : ImageTextExtractor) (image_path : Path)
  : M World dict :=
  with_local
    [ (lit "file_path", VStr (str_of_Path image_path));
      (lit "file_name", VStr (name image_path));
      (lit "success", VBool false);
      (lit "text", VStr []);
      (lit "error", VNone) ]
    (try_except
       (found <- lift (path_exists image_path) ;;
        when (negb found)
          (raise (mkExn FileNotFoundError
                    (lit "Image file not found: " ++ str_of_Path image_path))) ;;
        when (negb (str_in (lower (suffix image_path)) (supported_formats self)))
          (raise (mkExn ValueError
                    (lit "Unsupported image format: " ++ suffix image_path))) ;;
        opened <- lift (Image_open image_path) ;;
        img <- (if negb (str_eqb (mode opened) RGB)
                then lift (Image_convert opened RGB)
                else ret opened) ;;
        extracted_text <- lift (image_to_string img (tesseract_config self)) ;;
        set_local (fun result : dict =>
          dict_update result
            [ (lit "success", VBool true);
              (lit "text", VStr (strip extracted_text));
              (lit "image_size", VTuple [VInt (fst (size img)); VInt (snd (size img))]);
              (lit "image_mode", VStr (mode img)) ]) ;;
        lift (logger_info (lit "Successfully extracted text from " ++ name image_path)))
       (fun e =>
          let error_msg :=
            lit "Error processing " ++ name image_path ++ lit ": " ++ exn_str e in
          lift (logger_error error_msg) ;;
          set_local (fun result : dict => dict_set result (lit "error") (VStr error_msg))) ;;
     get_local).

(** [find_images_in_directory(self, directory, recursive)] *)
Definition find_images_in_directory (self : ImageTextExtractor) (directory : Path)
    (recursive : bool) : M World (list Path) :=
  let pattern := if recursive then StarStarSlashStar else Star in
  with_local ([] : list Path)
    (for_each (supported_formats self) (fun suffix =>
       found <- lift (Path_glob directory (pattern suffix)) ;;
       set_local (fun image_files => image_files ++ found) ;;
       found_upper <- lift (Path_glob directory (pattern (upper suffix))) ;;
       set_local (fun image_files => image_files ++ found_upper)) ;;
     image_files <- get_local ;;
     ret (sorted image_files)).

(** [enumerate(l, start)] *)
Definition enumerate {A} (l : list A) (start : nat) : list (nat * A) :=
  combine (seq start (length l)) l.

(** [batch_extract_text(self, source_path)] *)
Definition batch_extract_text (self : ImageTextExtractor) (source_path : Path)
  : M World (list dict) :=
  found <- path_exists source_path ;;
  if negb found then
    raise (mkExn FileNotFoundError
             (lit "Source path not found: " ++ str_of_Path source_path))
  else
    is_file <- path_is_file source_path ;;
    if is_file then
      result <- extract_text_from_image self source_path ;;
      ret [result]
    else
      image_files <- find_images_in_directory self source_path true ;;
      match image_files with
      | [] =>
          logger_warning (lit "No image files found in " ++ str_of_Path source_path) ;;
          ret []
      | _ :: _ =>
          logger_info (lit "Found " ++ str_of_nat (length image_files)
                       ++ lit " image files to process") ;;
          with_local ([] : list dict)
            (for_each (enumerate image_files 1) (fun i_image_file =>
               let i := fst i_image_file in
               let image_file := snd i_image_file in
               lift (logger_info (lit "Processing " ++ str_of_nat i ++ lit "/"
                                  ++ str_of_nat (length image_files) ++ lit ": "
                                  ++ name image_file)) ;;
               result <- lift (extract_text_from_image self image_file) ;;
               set_local (fun results => results ++ [result])) ;;
             get_local)
      end.

(** ** save_results *)

(** [type(v).__name__], for the messages of [TypeError]. *)
Definition type_name (v : value) : str :=
  match v with
  | VNone => lit "NoneType"
  | VBool _ => lit "bool"
  | VInt _ => lit "int"
  | VStr _ => lit "str"
  | VTuple _ => lit "tuple"
  | VList _ => lit "list"
  | VDict _ => lit "dict"
  end.

(** [Path(v)] for a value taken from a dictionary. *)
Definition Path_of_value {S} (v : value) : M S Path :=
  match v with
  | VStr s => ret (Path_of_str s)
  | _ => raise (mkExn TypeError
                  (lit "expected str, bytes or os.PathLike object, not " ++ type_name v))
  end.

(** [with open(p, 'w', encoding='utf-8') as f: f.write(v)]: the file is
    opened, hence created or emptied, before [write] looks at [v]. *)
Definition open_and_write (p : Path) (v : value) : M World unit :=
  match v with
  | VStr s => write_text p s
  | _ =>
      write_text p [] ;;
      raise (mkExn TypeError (lit "write() argument must be str, not " ++ type_name v))
  end.

Definition rule : str := repeat_char 61%N 50.

(** [save_results(results, output_format, output_path)] *)
Definition save_results (results : list dict) (output_format : str)
    (output_path : option Path) : M World unit :=
  if str_eqb output_format (lit "console") then
    for_each results (fun result =>
      print (newline :: rule) ;;
      file_name <- getitem result (lit "file_name") ;;
      print (lit "File: " ++ py_str file_name) ;;
      print rule ;;
      success <- getitem result (lit "success") ;;
      if truthy success then
        text <- getitem result (lit "text") ;;
        print (py_str text) ;;
        text' <- getitem result (lit "text") ;;
        when (negb (truthy text')) (print (lit "(No text found)"))
      else
        error <- getitem result (lit "error") ;;
        print (lit "ERROR: " ++ py_str error))
  else if str_eqb output_format (lit "json") then
    let output_path :=
      match output_path with
      | Some p => p
      | None => Path_of_str (lit "extracted_text_results.json")
      end in
    write_chunks output_path (json_chunks results) ;;
    logger_info (lit "Results saved to " ++ str_of_Path output_path)
  else if str_eqb output_format (lit "text") then
    let output_path :=
      match output_path with
      | Some p => p
      | None => Path_of_str (lit "extracted_text")
      end in
    Path_mkdir_exist_ok output_path ;;
    for_each results (fun result =>
      success <- getitem result (lit "success") ;;
      keep <- (if truthy success
               then text <- getitem result (lit "text") ;; ret (truthy text)
               else ret false) ;;
      when keep
        (file_name <- getitem result (lit "file_name") ;;
         image_name <- Path_of_value file_name ;;
         let text_filename := stem image_name ++ lit ".txt" in
         let text_filepath := joinpath output_path (Path_of_str text_filename) in
         text <- getitem result (lit "text") ;;
         open_and_write text_filepath text)) ;;
    logger_info (lit "Text files saved to " ++ str_of_Path output_path)
  else ret tt.

(** ** main *)

(** The parsed command line.  [verbose] only lowers the threshold of the
    root logger to DEBUG, and the program logs nothing at that level. *)
Record Args := mkArgs {
  single : option str;
  batch : bool;
  source_dir : str;
  format : str;
  output_file : option Path;
  output_dir : option Path;
  arg_tesseract_config : str;
  verbose : bool
}.

(** [sum(1 for r in results if r['success'])] *)
Fixpoint count_successful {St} (results : list dict) : M St nat :=
  match results with
  | [] => ret 0
  | r :: results' =>
      success <- getitem r (lit "success") ;;
      n <- count_successful results' ;;
      ret (if truthy success then S n else n)
  end.

(** The first statement of the [try] block of [main]: the results of the
    single image, or of the batch. *)
Definition main_extract (extractor : ImageTextExtractor) (args : Args)
  : M World (list dict) :=
  match single args with
  | Some (c :: s) =>
      result <- extract_text_from_image extractor (Path_of_str (c :: s)) ;;
      ret [result]
  | _ => batch_extract_text extractor (Path_of_str (source_dir args))
  end.

(** The rest of the [try] block: saving and the summary. *)
Definition main_report (args : Args) (results : list dict) : M World unit :=
  match results with
  | [] => logger_warning (lit "No results to save")
  | _ :: _ =>
      let output_path :=
        if str_eqb (format args) (lit "json") then output_file args
        else if str_eqb (format args) (lit "text") then output_dir args
        else None in
      save_results results (format args) output_path ;;
      successful <- count_successful results ;;
      let failed := (Z.of_nat (length results) - Z.of_nat successful)%Z in
      print (newline :: lit "Summary:") ;;
      print (lit "Total images processed: " ++ str_of_nat (length results)) ;;
      print (lit "Successful extractions: " ++ str_of_nat successful) ;;
      print (lit "Failed extractions: " ++ str_of_Z failed) ;;
      when (Z.ltb 0 failed)
        (print (newline :: lit "Failed files:") ;;
         for_each results (fun result =>
           success <- getitem result (lit "success") ;;
           when (negb (truthy success))
             (file_name <- getitem result (lit "file_name") ;;
              error <- getitem result (lit "error") ;;
              print (lit "  - " ++ py_str file_name ++ lit ": " ++ py_str error))))
  end.

(** [main()], from the parsed arguments to the exit code of the process:
    1 when an exception reaches the outer [except], 0 otherwise. *)
Definition main (args : Args) : World -> Z * World :=
  fun w =>
    let extractor := init (arg_tesseract_config args) in
    match (results <- main_extract extractor args ;; main_report args results) w with
    | (Returns _, w') => (0%Z, w')
    | (Raises e, w') =>
        (1%Z, snd (logger_error (lit "Application error: " ++ exn_str e) w'))
    end.

End Program.

(* ================================================================== *)
(** * json.load *)
(* ================================================================== *)

(** The decoder of the [json] module, on the text still to be read.
    [None] stands for [JSONDecodeError], and also for a number written
    with a fraction or an exponent and for [NaN] and the infinities: floats
    are outside this model, and the encoder above never writes them. *)

Definition is_ws (c : char) : bool :=
  (N.eqb c 32 || N.eqb c 9 || N.eqb c 10 || N.eqb c 13)%bool.

Fixpoint skip_ws (s : str) : str :=
  match s with
  | c :: s' => if is_ws c then skip_ws s' else s
  | [] => []
  end.

Definition hex_value (c : char) : option N :=
  if (N.leb 48 c && N.leb c 57)%bool then Some (c - 48)%N
  else if (N.leb 97 c && N.leb c 102)%bool then Some (c - 87)%N
  else if (N.leb 65 c && N.leb c 70)%bool then Some (c - 55)%N
  else None.

(** The four hexadecimal digits after [\u]. *)
Definition decode_uXXXX (s : str) : option (N * str) :=
  match s with
  | a :: b :: c :: d :: s' =>
      match hex_value a, hex_value b, hex_value c, hex_value d with
      | Some x, Some y, Some z, Some t => Some (((x * 16 + y) * 16 + z) * 16 + t, s')%N
      | _, _, _, _ => None
      end
  | _ => None
  end.

(** [BACKSLASH] of [json.decoder]: the one-letter escapes. *)
Definition unescape (c : char) : option char :=
  if N.eqb c dquote then Some dquote
  else if N.eqb c backslash then Some backslash
  else if N.eqb c slash then Some slash
  else if N.eqb c 98 then Some 8%N
  else if N.eqb c 102 then Some 12%N
  else if N.eqb c 110 then Some 10%N
  else if N.eqb c 114 then Some 13%N
  else if N.eqb c 116 then Some 9%N
  else None.

(** A decoded character put in front of the rest of the string. *)
Definition scanned (c : char) (r : option (str * str)) : option (str * str) :=
  match r with
  | Some (x, rest) => Some (c :: x, rest)
  | None => None
  end.

(** The low half of a surrogate pair: a second [\uXXXX] escape in the
    low range, right after a first one in the high range. *)
Definition low_surrogate (uni : N) (b1 u1 a2 b2 c2 d2 : char) : option N :=
  if (N.leb 55296 uni && N.leb uni 56319 && N.eqb b1 backslash && N.eqb u1 117)%bool then
    match decode_uXXXX [a2; b2; c2; d2] with
    | Some (uni2, _) =>
        if (N.leb 56320 uni2 && N.leb uni2 57343)%bool then Some uni2 else None
    | None => None
    end
  else None.

(** [scanstring(s, end, strict=True)], from just after the opening quote:
    the decoded string and what follows the closing quote. *)
Fixpoint scanstring (s : str) : option (str * str) :=
  match s with
  | [] => None
  | c :: s' =>
      if N.eqb c dquote then Some ([], s')
      else if N.eqb c backslash then
        match s' with
        | [] => None
        | e :: s'' =>
            if N.eqb e 117 then
              match s'' with
              | a :: b :: c' :: d :: s3 =>
                  match decode_uXXXX [a; b; c'; d] with
                  | Some (uni, _) =>
                      match s3 with
                      | b1 :: u1 :: a2 :: b2 :: c2 :: d2 :: s4 =>
                          match low_surrogate uni b1 u1 a2 b2 c2 d2 with
                          | Some uni2 =>
                              scanned (65536 + ((uni - 55296) * 1024 + (uni2 - 56320)))%N
                                      (scanstring s4)
                          | None => scanned uni (scanstring s3)
                          end
                      | _ => scanned uni (scanstring s3)
                      end
                  | None => None
                  end
              | _ => None
              end
            else
              match unescape e with
              | Some ch => scanned ch (scanstring s'')
              | None => None
              end
        end
      else if N.ltb c 32 then None
      else scanned c (scanstring s')
  end.

Definition is_digit (c : char) : bool := (N.leb 48 c && N.leb c 57)%bool.

Fixpoint span_digits (s : str) : str * str :=
  match s with
  | c :: s' =>
      if is_digit c then let (ds, r) := span_digits s' in (c :: ds, r) else ([], s)
  | [] => ([], [])
  end.

Fixpoint uint_of_digits (s : str) : Decimal.uint :=
  match s with
  | [] => Decimal.Nil
  | c :: s' =>
      let d := uint_of_digits s' in
      match c with
      | 48 => Decimal.D0 d | 49 => Decimal.D1 d | 50 => Decimal.D2 d
      | 51 => Decimal.D3 d | 52 => Decimal.D4 d | 53 => Decimal.D5 d
      | 54 => Decimal.D6 d | 55 => Decimal.D7 d | 56 => Decimal.D8 d
      | 57 => Decimal.D9 d | _ => d
      end%N
  end.

(** [NUMBER_RE], matched at the start of the text: an optional minus
    sign, then either a single zero or a non-zero digit followed by any
    number of digits; then, optionally, a fraction (a dot and digits) and
    an exponent (e or E, an optional sign, digits). *)
Definition match_integer (s : str) : option (str * str) :=
  match s with
  | c :: s' =>
      if N.eqb c 48 then Some ([c], s')
      else if is_digit c then let (ds, r) := span_digits s' in Some (c :: ds, r)
      else None
  | [] => None
  end.

Definition starts_fraction (s : str) : bool :=
  match s with
  | c :: d :: _ => (N.eqb c dot && is_digit d)%bool
  | _ => false
  end.

Definition starts_exponent (s : str) : bool :=
  match s with
  | e :: d :: r =>
      ((N.eqb e 101 || N.eqb e 69)
       && (is_digit d
           || ((N.eqb d 43 || N.eqb d 45)
               && match r with d' :: _ => is_digit d' | [] => false end)))%bool
  | _ => false
  end.

Inductive number : Type :=
| Integer (z : Z)
| Float.

Definition match_number (s : str) : option (number * str) :=
  let (negative, s1) :=
    match s with
    | c :: s' => if N.eqb c 45 then (true, s') else (false, s)
    | [] => (false, s)
    end in
  match match_integer s1 with
  | Some (ds, r) =>
      if (starts_fraction r || starts_exponent r)%bool then Some (Float, r)
      else
        let n := Z.of_N (N.of_uint (uint_of_digits ds)) in
        Some (Integer (if negative then (- n)%Z else n), r)
  | None => None
  end.

(** [dict(pairs)]: a repeated key keeps its first position and takes the
    last value. *)
Definition dict_of_pairs (pairs : list (str * value)) : dict :=
  fold_left (fun d kv => dict_set d (fst kv) (snd kv)) pairs [].

(** [scan_once], [JSONArray] and [JSONObject].  Arrays are read as lists.
    [fuel] bounds the number of nested calls. *)
Fixpoint scan_once (fuel : nat) (s : str) : option (value * str) :=
  match fuel with
  | O => None
  | S fuel' =>
      match s with
      | [] => None
      | c :: s' =>
          if N.eqb c dquote then
            match scanstring s' with
            | Some (x, r) => Some (VStr x, r)
            | None => None
            end
          else if N.eqb c 123 then
            match skip_ws s' with
            | c1 :: r1 =>
                if N.eqb c1 125 then Some (VDict [], r1)
                else
                  match JSONObject fuel' (c1 :: r1) [] with
                  | Some (pairs, r) => Some (VDict (dict_of_pairs pairs), r)
                  | None => None
                  end
            | [] => None
            end
          else if N.eqb c 91 then
            match skip_ws s' with
            | c1 :: r1 =>
                if N.eqb c1 93 then Some (VList [], r1)
                else
                  match JSONArray fuel' (c1 :: r1) [] with
                  | Some (values, r) => Some (VList values, r)
                  | None => None
                  end
            | [] => None
            end
          else if startswith s (lit "null") then Some (VNone, skipn 4 s)
          else if startswith s (lit "true") then Some (VBool true, skipn 4 s)
          else if startswith s (lit "false") then Some (VBool false, skipn 5 s)
          else
            match match_number s with
            | Some (Integer z, r) => Some (VInt z, r)
            | _ => None
            end
      end
  end

(** The loop of [JSONArray]: a value, then [']'] or [','] and the next. *)
with JSONArray (fuel : nat) (s : str) (values : list value)
  : option (list value * str) :=
  match fuel with
  | O => None
  | S fuel' =>
      match scan_once fuel' s with
      | Some (v, r) =>
          match skip_ws r with
          | c :: r1 =>
              if N.eqb c 93 then Some (values ++ [v], r1)
              else if N.eqb c 44 then JSONArray fuel' (skip_ws r1) (values ++ [v])
              else None
          | [] => None
          end
      | None => None
      end
  end

(** The loop of [JSONObject]: a quoted key, [':'], a value, then ['}'] or
    [','] and the next pair. *)
with JSONObject (fuel : nat) (s : str) (pairs : list (str * value))
  : option (list (str * value) * str) :=
  match fuel with
  | O => None
  | S fuel' =>
      match s with
      | q :: s' =>
          if N.eqb q dquote then
            match scanstring s' with
            | Some (key, r) =>
                match skip_ws r with
                | colon :: r1 =>
                    if N.eqb colon 58 then
                      match scan_once fuel' (skip_ws r1) with
                      | Some (v, r2) =>
                          match skip_ws r2 with
                          | c :: r3 =>
                              if N.eqb c 125 then Some (pairs ++ [(key, v)], r3)
                              else if N.eqb c 44 then
                                JSONObject fuel' (skip_ws r3) (pairs ++ [(key, v)])
                              else None
                          | [] => None
                          end
                      | None => None
                      end
                    else None
                | [] => None
                end
            | None => None
            end
          else None
      | [] => None
      end
  end.

(** [json.loads(s)]: one value, surrounded by white space only. *)
Definition json_loads (s : str) : option value :=
  match scan_once (S (length s)) (skip_ws s) with
  | Some (v, r) => match skip_ws r with [] => Some v | _ :: _ => None end
  | None => None
  end.

(** What a value becomes in JSON and back: tuples turn into lists. *)
Fixpoint as_json (v : value) : value :=
  match v with
  | VTuple l | VList l =>
      VList ((fix items (l : list value) : list value :=
                match l with [] => [] | x :: l' => as_json x :: items l' end) l)
  | VDict d =>
      VDict ((fix items (l : list (str * value)) : list (str * value) :=
                match l with [] => [] | (k, x) :: l' => (k, as_json x) :: items l' end) d)
  | _ => v
  end.

(* ================================================================== *)
(** * Vocabulary of the properties *)
(* ================================================================== *)

(** The dictionary of a failed extraction. *)
Definition failed_result (p : Path) (msg : str) : dict :=
  [ (lit "file_path", VStr (str_of_Path p));
    (lit "file_name", VStr (name p));
    (lit "success", VBool false);
    (lit "text", VStr []);
    (lit "error", VStr msg) ].

(** The dictionary of a successful extraction. *)
Definition successful_result (p : Path) (img : Image) (text : str) : dict :=
  [ (lit "file_path", VStr (str_of_Path p));
    (lit "file_name", VStr (name p));
    (lit "success", VBool true);
    (lit "text", VStr text);
    (lit "error", VNone);
    (lit "image_size", VTuple [VInt (fst (size img)); VInt (snd (size img))]);
    (lit "image_mode", VStr (mode img)) ].

(** The message the [except] clause composes. *)
Definition error_message (p : Path) (cause : str) : str :=
  lit "Error processing " ++ name p ++ lit ": " ++ cause.

Definition not_found_cause (p : Path) : str :=
  lit "Image file not found: " ++ str_of_Path p.

(** The world after one more log record. *)
Definition logged (l : level) (msg : str) (w : World) : World :=
  {| fs := fs w; cwd := cwd w; stdout := stdout w; log := log w ++ [(l, msg)];
     refusal := refusal w |}.

(** An ExtractionResult: the five fields every result carries, with the
    types the extractor gives them. *)
Definition is_ExtractionResult (r : dict) : bool :=
  match dict_get r (lit "file_path"), dict_get r (lit "file_name"),
        dict_get r (lit "success"), dict_get r (lit "text"),
        dict_get r (lit "error") with
  | Some (VStr _), Some (VStr _), Some (VBool _), Some (VStr _), Some (VNone | VStr _) =>
      true
  | _, _, _, _, _ => false
  end.

(** The fields of a result, as the properties read them. *)
Definition success_of (r : dict) : bool :=
  match dict_get r (lit "success") with Some v => truthy v | None => false end.
Definition text_of (r : dict) : str :=
  match dict_get r (lit "text") with Some (VStr t) => t | _ => [] end.
Definition error_of (r : dict) : option str :=
  match dict_get r (lit "error") with Some (VStr e) => Some e | _ => None end.
Definition file_name_of (r : dict) : str :=
  match dict_get r (lit "file_name") with Some (VStr f) => f | _ => [] end.

(** The two alternatives of the invariant as the data model words it:
    text populated and error absent; or error populated, text empty and
    no success. *)
Definition text_populated_error_absent (r : dict) : bool :=
  (negb (str_eqb (text_of r) []) && match error_of r with None => true | Some _ => false end)%bool.
Definition error_populated_text_empty (r : dict) : bool :=
  (match error_of r with Some _ => true | None => false end
   && str_eqb (text_of r) [] && negb (success_of r))%bool.

(** The first alternative as the code has it: success, with no error. *)
Definition success_error_absent (r : dict) : bool :=
  (success_of r && match error_of r with None => true | Some _ => false end)%bool.

(** What [directory.glob(pattern)] yields in a world. *)
Definition globbed (w : World) (directory : Path) (pattern : glob_pattern) : list Path :=
  match stat w directory with
  | Some n =>
      map (mkPath (is_abs directory))
          (match pattern with
           | Star suf => glob_here n (parts directory) suf
           | StarStarSlashStar suf => glob_rec n (parts directory) suf
           end)
  | None => []
  end.

(** What the locator collects before sorting: for each supported suffix,
    the matches of the suffix and those of its upper-case form. *)
Definition collected (w : World) (directory : Path) (recursive : bool)
    (suffixes : list str) : list Path :=
  flat_map (fun suffix =>
              globbed w directory
                ((if recursive then StarStarSlashStar else Star) suffix)
              ++ globbed w directory
                   ((if recursive then StarStarSlashStar else Star) (upper suffix)))
           suffixes.

(** The images the locator finds in a world. *)
Definition located (w : World) (self : ImageTextExtractor) (directory : Path)
    (recursive : bool) : list Path :=
  sorted (collected w directory recursive (supported_formats self)).

(** [r] is what the extractor returns for [image] in some world with the
    given filesystem, working directory and refusals of the operating
    system; it is an ExtractionResult that carries the path and the name
    of that image. *)
Definition extraction_of (repr_str : str -> str) (decode : Path -> str -> outcome Image)
    (convert_pixels : Image -> str -> outcome (list N))
    (ocr : Image -> str -> outcome str)
    (self : ImageTextExtractor) (root : node) (dir : list str)
    (refused : Path -> option exn)
    (image : Path) (r : dict) : Prop :=
  is_ExtractionResult r = true
  /\ dict_get r (lit "file_path") = Some (VStr (str_of_Path image))
  /\ dict_get r (lit "file_name") = Some (VStr (name image))
  /\ exists wi,
       fs wi = root /\ cwd wi = dir /\ refusal wi = refused
       /\ fst (extract_text_from_image repr_str decode convert_pixels ocr self image wi)
          = Returns r.

(** A location holds a directory. *)
Definition is_dir_at (root : node) (pos : list str) : Prop :=
  exists es, lookup root pos = Some (Dir es).

(** The results the text sink writes a file for: successful, with a text
    that is not empty. *)
Definition kept (r : dict) : bool :=
  (success_of r && negb (str_eqb (text_of r) []))%bool.

(** The name of the text file of a result: the stem of the image's name
    followed by [.txt]. *)
Definition text_file_name (r : dict) : str :=
  stem (Path_of_str (file_name_of r)) ++ lit ".txt".

(** The text that ends up in the file [nm] of the destination once the
    results have been processed in order: that of the last kept result
    whose text file has this name, if there is one. *)
Fixpoint written (results : list dict) (nm : str) : option str :=
  match results with
  | [] => None
  | r :: rest =>
      match written rest nm with
      | Some t => Some t
      | None =>
          if (kept r && str_eqb (text_file_name r) nm)%bool
          then Some (text_of r) else None
      end
  end.

(** The destination of the text sink and of the JSON sink. *)
Definition text_destination (output_path : option Path) : Path :=
  match output_path with
  | Some p => p
  | None => Path_of_str (lit "extracted_text")
  end.
Definition json_destination (output_path : option Path) : Path :=
  match output_path with
  | Some p => p
  | None => Path_of_str (lit "extracted_text_results.json")
  end.

(** The body of the loop of the text sink, for one result. *)
Definition text_sink_step (repr_str : str -> str) (output_path : Path) (result : dict)
  : M World unit :=
  success <- getitem repr_str result (lit "success") ;;
  keep <- (if truthy success
           then text <- getitem repr_str result (lit "text") ;; ret (truthy text)
           else ret false) ;;
  when keep
    (file_name <- getitem repr_str result (lit "file_name") ;;
     image_name <- Path_of_value file_name ;;
     let text_filename := stem image_name ++ lit ".txt" in
     let text_filepath := joinpath output_path (Path_of_str text_filename) in
     text <- getitem repr_str result (lit "text") ;;
     open_and_write repr_str text_filepath text).

(** A string without a slash. *)
Definition no_slash (s : str) : Prop := Forall (fun c => c <> slash) s.

(** The output path [main] hands to [save_results]. *)
Definition output_path_of (args : Args) : option Path :=
  if str_eqb (format args) (lit "json") then output_file args
  else if str_eqb (format args) (lit "text") then output_dir args
  else None.

(** What [main] prints about a failed result in console mode, followed by
    the summary of a run with this one failed result. *)
Definition console_report_of_failure (file_name msg : str) : list str :=
  [ newline :: rule;
    lit "File: " ++ file_name;
    rule;
    lit "ERROR: " ++ msg;
    newline :: lit "Summary:";
    lit "Total images processed: 1";
    lit "Successful extractions: 0";
    lit "Failed extractions: 1";
    newline :: lit "Failed files:";
    lit "  - " ++ file_name ++ lit ": " ++ msg ].

(** ** Vocabulary of the JSON round trip *)

(** Keys without repetition, as in every Python dictionary. *)
Fixpoint keys_unique (ks : list str) : bool :=
  match ks with
  | [] => true
  | k :: ks' => (negb (str_in k ks') && keys_unique ks')%bool
  end.

(** A value all of whose dictionaries have keys without repetition. *)
Fixpoint well_formed (v : value) : bool :=
  match v with
  | VTuple l | VList l =>
      (fix all (l : list value) : bool :=
         match l with [] => true | x :: l' => (well_formed x && all l')%bool end) l
  | VDict d =>
      (keys_unique (map fst d)
       && (fix all (l : list (str * value)) : bool :=
             match l with
             | [] => true
             | (_, x) :: l' => (well_formed x && all l')%bool
             end) d)%bool
  | _ => true
  end.

(** The number of nested calls the decoder needs for a value. *)
Fixpoint vsize (v : value) : nat :=
  match v with
  | VTuple l | VList l =>
      S ((fix sizes (l : list value) : nat :=
            match l with [] => 0 | x :: l' => S (vsize x + sizes l') end) l)
  | VDict d =>
      S ((fix sizes (l : list (str * value)) : nat :=
            match l with [] => 0 | (_, x) :: l' => S (vsize x + sizes l') end) d)
  | _ => 1
  end.

(** The items of an array and the pairs of an object as [iterencode]
    writes them at a level, after the first one or from the first one. *)
Fixpoint encode_items (lvl : nat) (l : list value) (first : bool) : str :=
  match l with
  | [] => []
  | x :: l' =>
      (if first then [] else lit "," ++ newline_indent lvl)
      ++ iterencode x lvl ++ encode_items lvl l' false
  end.

Fixpoint encode_pairs (lvl : nat) (l : list (str * value)) (first : bool) : str :=
  match l with
  | [] => []
  | (k, v) :: l' =>
      (if first then [] else lit "," ++ newline_indent lvl)
      ++ encode_basestring k ++ lit ": " ++ iterencode v lvl
      ++ encode_pairs lvl l' false
  end.

(** What may follow a value in the text [iterencode] writes: nothing, a
    comma, or the line break before a closing bracket. *)
Definition delimited (rest : str) : Prop :=
  match rest with
  | [] => True
  | c :: _ => c = 44%N \/ c = newline
  end.

(** A decimal number in normal form: a single zero, or digits that start
    with a non-zero one. *)
Definition normal_uint (d : Decimal.uint) : Prop :=
  match d with
  | Decimal.Nil => False
  | Decimal.D0 d' => d' = Decimal.Nil
  | _ => True
  end.

(** A value without tuples at any depth. *)
Fixpoint tuple_free (v : value) : bool :=
  match v with
  | VTuple _ => false
  | VList l =>
      (fix all (l : list value) : bool :=
         match l with [] => true | x :: l' => (tuple_free x && all l')%bool end) l
  | VDict d =>
      (fix all (l : list (str * value)) : bool :=
         match l with
         | [] => true
         | (_, x) :: l' => (tuple_free x && all l')%bool
         end) d
  | _ => true
  end.

(** A value is read back from the text written for it, at any level of
    indentation and before any text that may follow a value, as its JSON
    image. *)
Definition round_trips (v : value) : Prop :=
  forall lvl fuel rest,
    well_formed v = true -> vsize v <= fuel -> delimited rest ->
    scan_once fuel (iterencode v lvl ++ rest) = Some (as_json v, rest).

(* ================================================================== *)
(** * Sample collaborators and a sample filesystem *)
(* ================================================================== *)

Module Sample.

(** A stand-in for [repr] on strings: single quotes around the text. *)
Definition repr_str (s : str) : str := (39%N :: s) ++ [39%N].

(** A stand-in for the imaging library: a file starting with [P] is a
    640x480 RGB image, one starting with [L] a 2x3 greyscale image; the
    rest of the file are the pixels.  Anything else is not an image. *)
Definition decode (p : Path) (content : str) : outcome Image :=
  match content with
  | 80%N :: px => Returns {| size := (640, 480)%Z; mode := lit "RGB"; pixels := px |}
  | 76%N :: px => Returns {| size := (2, 3)%Z; mode := lit "L"; pixels := px |}
  | _ => Raises (mkExn (OtherException (lit "UnidentifiedImageError"))
                   (lit "cannot identify image file " ++ repr_str (str_of_Path p)))
  end.

Definition convert_pixels (img : Image) (m : str) : outcome (list N) :=
  Returns (pixels img).

(** A stand-in for the OCR engine: it reads the pixels as the text, and
    fails on an image without pixels. *)
Definition ocr (img : Image) (config : str) : outcome str :=
  match pixels img with
  | [] => Raises (mkExn (OtherException (lit "TesseractError")) (lit "empty page"))
  | px => Returns px
  end.

(** /home holds two images, a text file, an image with a mixed-case
    suffix, a hidden file named [.jpg], and a subdirectory with one more
    image. *)
Definition root : node :=
  Dir [ (lit "home",
         Dir [ (lit "a.png", File (lit "P HELLO "));
               (lit "b.jpg", File (lit "L  "));
               (lit "c.txt", File (lit "notes"));
               (lit "photo.Jpg", File (lit "PMIXED"));
               (lit ".jpg", File (lit "PHIDDEN"));
               (lit "scans", Dir [ (lit "a.JPG", File (lit "PWORLD")) ]) ]) ].

(** A stand-in for the refusals of the operating system: as on Linux, a
    name of more than 255 bytes is refused with [ENAMETOOLONG] when it is
    looked up in a directory of the tree. *)
Definition utf8_size (c : char) : nat :=
  if N.ltb c 128 then 1
  else if N.ltb c 2048 then 2
  else if is_surrogate c then 1
  else if N.ltb c 65536 then 3
  else 4.

Fixpoint too_long (cur : list str) (comps : list str) : bool :=
  match comps with
  | [] => false
  | c :: cs =>
      match lookup root cur with
      | Some (Dir _) =>
          if Nat.ltb 255 (list_sum (map utf8_size c)) then true
          else if str_eqb c dotdot then too_long (removelast cur) cs
          else too_long (cur ++ [c]) cs
      | _ => false
      end
  end.

Definition name_too_long (p : Path) : option exn :=
  if too_long (if is_abs p then [] else [lit "home"]) (parts p)
  then Some (mkExn (OtherException (lit "OSError"))
               (lit "[Errno 36] File name too long: " ++ repr_str (str_of_Path p)))
  else None.

Definition world : World :=
  {| fs := root; cwd := [lit "home"]; stdout := []; log := [];
     refusal := name_too_long |}.

(** A name of 300 letters, with the suffix of an image. *)
Definition long_name : str := repeat_char 97%N 300 ++ lit ".png".

Definition extractor : ImageTextExtractor := init default_config.

(** Two successful results whose images share the stem [a]. *)
Definition result_of (file_name text : str) : dict :=
  [ (lit "file_path", VStr file_name);
    (lit "file_name", VStr file_name);
    (lit "success", VBool true);
    (lit "text", VStr text);
    (lit "error", VNone);
    (lit "image_size", VTuple [VInt 640; VInt 480]);
    (lit "image_mode", VStr RGB) ].

Definition same_stem : list dict :=
  [ result_of (lit "a.png") (lit "HELLO"); result_of (lit "a.jpg") (lit "WORLD") ].

End Sample.
(* ================================================================== *)
(** * Properties *)
(* ================================================================== *)

Arguments lit : simpl never.
Arguments strip : simpl never.

Lemma str_eqb_eq (a b : str) : str_eqb a b = true <-> a = b.
Proof.
  revert b; induction a as [|x a IH]; destruct b as [|y b]; simpl; split; try easy.
  - intros H. apply andb_true_iff in H as [H1 H2].
    apply N.eqb_eq in H1. apply IH in H2. congruence.
  - intros H. injection H as -> ->. rewrite N.eqb_refl. simpl. now apply IH.
Qed.

Lemma str_eqb_refl (a : str) : str_eqb a a = true.
Proof. now apply str_eqb_eq. Qed.

Lemma str_eqb_neq (a b : str) : str_eqb a b = false <-> a <> b.
Proof.
  split.
  - intros H E. apply str_eqb_eq in E. congruence.
  - intros H. destruct (str_eqb a b) eqn:E; [|reflexivity].
    apply str_eqb_eq in E. contradiction.
Qed.

(** [os.stat] succeeds only on a path that is not refused. *)
Lemma stat_Some_refusal w p n : stat w p = Some n -> refusal w p = None.
Proof. unfold stat. now destruct (refusal w p). Qed.

Lemma stat_refused w p e : refusal w p = Some e -> stat w p = None.
Proof. intros H. unfold stat. now rewrite H. Qed.

Lemma stat_resolve w p :
  refusal w p = None ->
  stat w p = match resolve w p with Found q => lookup (fs w) q | _ => None end.
Proof. intros H. unfold stat. now rewrite H. Qed.

Section ExtractorProperties.

Variable repr_str : str -> str.
Variable decode : Path -> str -> outcome Image.
Variable convert_pixels : Image -> str -> outcome (list N).
Variable ocr : Image -> str -> outcome str.

Local Notation "'extract'" :=
  (extract_text_from_image repr_str decode convert_pixels ocr).

Ltac run_extract :=
  unfold extract_text_from_image, with_local, try_except, bind, lift, when,
    path_exists, Image_open, Image_convert, image_to_string, set_local, get_local,
    raise, ret, logger_info, logger_error, logger_log, modify;
  cbn [fst snd].

(** A path that the operating system reports as missing gives the failed
    result that names the missing file; a path it refuses gives the failed
    result that carries its error. *)
Lemma extract_missing self p w :
  stat w p = None -> refusal w p = None ->
  extract self p w
  = (Returns (failed_result p (error_message p (not_found_cause p))),
     logged ERROR (error_message p (not_found_cause p)) w).
Proof.
  intros Hs Hr. run_extract. rewrite Hr, Hs. reflexivity.
Qed.

Lemma extract_refused self p w e :
  refusal w p = Some e ->
  extract self p w
  = (Returns (failed_result p (error_message p (exn_str e))),
     logged ERROR (error_message p (exn_str e)) w).
Proof.
  intros Hr. run_extract. rewrite Hr. reflexivity.
Qed.

(** The two ways a call ends: the failed result with the message built
    from some cause, or the successful result of an RGB image. *)
Lemma extract_cases self p w :
  (exists cause,
      extract self p w
      = (Returns (failed_result p (error_message p cause)),
         logged ERROR (error_message p cause) w))
  \/ (exists img text,
         mode img = RGB
         /\ extract self p w
            = (Returns (successful_result p img (strip text)),
               logged INFO (lit "Successfully extracted text from " ++ name p) w)).
Proof.
  destruct (refusal w p) as [e|] eqn:Er.
  { left. exists (exn_str e). eapply extract_refused. exact Er. }
  run_extract. rewrite Er.
  destruct (stat w p) as [nd|] eqn:Est; cbn [negb fst snd].
  2:{ left. eexists. reflexivity. }
  destruct (str_in (lower (suffix p)) (supported_formats self)); cbn [negb fst snd].
  2:{ left. eexists. reflexivity. }
  rewrite (@stat_resolve w p Er) in Est.
  destruct (resolve w p) as [q| |]; try discriminate.
  rewrite ?Er, Est. rewrite ?Er.
  destruct nd as [content|es].
  2:{ left. eexists. reflexivity. }
  destruct (decode p content) as [opened|e]; cbn [negb fst snd].
  2:{ left. eexists. reflexivity. }
  destruct (str_eqb (mode opened) RGB) eqn:Em; cbn [negb fst snd].
  - destruct (ocr opened (tesseract_config self)) as [text|e]; cbn [negb fst snd].
    + right. exists opened, text. split; [now apply str_eqb_eq | reflexivity].
    + left. eexists. reflexivity.
  - destruct (convert_pixels opened RGB) as [px|e]; cbn [negb fst snd].
    2:{ left. eexists. reflexivity. }
    match goal with
    | |- context [ocr ?i ?c] => destruct (ocr i c) as [text|e]
    end; cbn [negb fst snd].
    + right. eexists _, text. split; [|reflexivity]. reflexivity.
    + left. eexists. reflexivity.
Qed.

(** Every call returns, and what it returns is an ExtractionResult for
    the path it was given; the world only gains one log record. *)
Lemma extract_returns self p w :
  exists r l msg,
    extract self p w = (Returns r, logged l msg w)
    /\ is_ExtractionResult r = true
    /\ dict_get r (lit "file_path") = Some (VStr (str_of_Path p))
    /\ dict_get r (lit "file_name") = Some (VStr (name p)).
Proof.
  destruct (extract_cases self p w) as [[cause E]|(img & text & _ & E)];
    rewrite E; do 3 eexists; repeat split.
Qed.

(** C1, as amended.  [extract_text_from_image] returns an
    ExtractionResult for every path and never raises.  For a path that
    does not exist the result has [success] false; its error message
    reports the file as not found when the operating system reports the
    path as missing, and carries the error of the operating system when it
    refuses to look at the path (a name that is too long, a directory that
    may not be searched). *)
Theorem extract_text_from_image_never_raises self p w :
  (exists r w', extract self p w = (Returns r, w') /\ is_ExtractionResult r = true)
  /\ (stat w p = None ->
      exists r w',
        extract self p w = (Returns r, w')
        /\ dict_get r (lit "success") = Some (VBool false)
        /\ dict_get r (lit "error")
           = Some (VStr (lit "Error processing " ++ name p ++ lit ": "
                         ++ match refusal w p with
                            | None => lit "Image file not found: " ++ str_of_Path p
                            | Some e => exn_str e
                            end))).
Proof.
  split.
  - destruct (extract_returns self p w) as (r & l & msg & E & Hr & _).
    exists r, (logged l msg w). now split.
  - intros Hs. destruct (refusal w p) as [e|] eqn:Er.
    + erewrite extract_refused by exact Er. do 2 eexists. repeat split.
    + erewrite extract_missing by assumption. do 2 eexists. repeat split.
Qed.

(** C2, as amended.  Every result satisfies exactly one of: success with
    no error (the text may be empty, when nothing was recognised); or no
    success, an error message and an empty text.  The error is present
    exactly when [success] is false. *)
Theorem result_invariant self p w :
  exists r w',
    extract self p w = (Returns r, w')
    /\ xorb (success_error_absent r) (error_populated_text_empty r) = true
    /\ (match error_of r with Some _ => true | None => false end) = negb (success_of r).
Proof.
  destruct (extract_cases self p w) as [[cause E]|(img & text & _ & E)];
    rewrite E; do 2 eexists; repeat split.
Qed.

(** C10.  A successful result records the mode ['RGB'], whatever the mode
    of the file that was opened. *)
Theorem successful_result_mode_is_RGB self p w r w' :
  extract self p w = (Returns r, w') ->
  dict_get r (lit "success") = Some (VBool true) ->
  dict_get r (lit "image_mode") = Some (VStr RGB).
Proof.
  intros E Hs.
  destruct (extract_cases self p w) as [[cause E']|(img & text & Hm & E')];
    rewrite E' in E; injection E as <- <-.
  - discriminate Hs.
  - cbn. now rewrite Hm.
Qed.

End ExtractorProperties.

(** ** The locator and the batch *)

Section LocatorProperties.

Variable repr_str : str -> str.
Variable decode : Path -> str -> outcome Image.
Variable convert_pixels : Image -> str -> outcome (list N).
Variable ocr : Image -> str -> outcome str.

Local Notation "'extract'" :=
  (extract_text_from_image repr_str decode convert_pixels ocr).
Local Notation "'batch'" :=
  (batch_extract_text repr_str decode convert_pixels ocr).
Local Notation "'extracted_from'" :=
  (extraction_of repr_str decode convert_pixels ocr).

(** The loop of the locator extends the list it has with the matches of
    each suffix and leaves the world alone; on a refused directory the
    first [glob] raises. *)
Lemma locator_loop (w : World) (directory : Path) (recursive : bool)
    (suffixes : list str) (acc : list Path) :
  refusal w directory = None ->
  for_each suffixes
    (fun suffix =>
       found <- lift (Path_glob directory
                        ((if recursive then StarStarSlashStar else Star) suffix)) ;;
       set_local (fun image_files : list Path => image_files ++ found) ;;
       found_upper <- lift (Path_glob directory
                              ((if recursive then StarStarSlashStar else Star)
                                 (upper suffix))) ;;
       set_local (fun image_files : list Path => image_files ++ found_upper))
    (acc, w)
  = (Returns tt, (acc ++ collected w directory recursive suffixes, w)).
Proof.
  intros Hr. revert acc. induction suffixes as [|suffix suffixes IH]; intros acc.
  - cbn. now rewrite app_nil_r.
  - cbn [for_each]. unfold bind at 1.
    unfold bind at 1. unfold lift at 1. unfold Path_glob at 1. cbn [fst snd].
    rewrite Hr.
    unfold bind at 1. unfold set_local at 1. cbn [fst snd].
    unfold bind at 1. unfold lift at 1. unfold Path_glob at 1. cbn [fst snd].
    rewrite Hr.
    unfold set_local at 1. cbn [fst snd].
    rewrite IH. unfold collected. cbn [flat_map]. unfold globbed.
    now rewrite <- !app_assoc.
Qed.

Lemma locator_loop_refused (w : World) (directory : Path) (recursive : bool)
    (suffix : str) (suffixes : list str) (acc : list Path) e :
  refusal w directory = Some e ->
  for_each (suffix :: suffixes)
    (fun suffix =>
       found <- lift (Path_glob directory
                        ((if recursive then StarStarSlashStar else Star) suffix)) ;;
       set_local (fun image_files : list Path => image_files ++ found) ;;
       found_upper <- lift (Path_glob directory
                              ((if recursive then StarStarSlashStar else Star)
                                 (upper suffix))) ;;
       set_local (fun image_files : list Path => image_files ++ found_upper))
    (acc, w)
  = (Raises e, (acc, w)).
Proof.
  intros Hr. cbn [for_each]. unfold bind at 1.
  unfold bind at 1. unfold lift at 1. unfold Path_glob at 1. cbn [fst snd].
  now rewrite Hr.
Qed.

(** The locator returns the sorted matches and changes nothing. *)
Lemma find_images_in_directory_spec self directory recursive w :
  refusal w directory = None ->
  find_images_in_directory self directory recursive w
  = (Returns (located w self directory recursive), w).
Proof.
  intros Hr. unfold find_images_in_directory, with_local.
  unfold bind at 1. rewrite locator_loop by exact Hr. reflexivity.
Qed.

(** On a refused directory it raises the error of the operating system,
    unless it has no suffix to look for. *)
Lemma find_images_refused self directory recursive w e :
  refusal w directory = Some e ->
  supported_formats self <> [] ->
  find_images_in_directory self directory recursive w = (Raises e, w).
Proof.
  intros Hr Hne. unfold find_images_in_directory, with_local.
  destruct (supported_formats self) as [|suffix suffixes]; [contradiction|].
  unfold bind at 1. erewrite locator_loop_refused by exact Hr. reflexivity.
Qed.

Lemma find_images_keeps_world self directory recursive w :
  snd (find_images_in_directory self directory recursive w) = w.
Proof.
  destruct (refusal w directory) as [e|] eqn:Hr.
  - destruct (supported_formats self) as [|suffix suffixes] eqn:Hf.
    + unfold find_images_in_directory. rewrite Hf. reflexivity.
    + erewrite find_images_refused; [reflexivity | exact Hr |].
      rewrite Hf. discriminate.
  - now rewrite find_images_in_directory_spec by exact Hr.
Qed.

Lemma globbed_missing w directory pattern :
  stat w directory = None -> globbed w directory pattern = [].
Proof. intros H. unfold globbed. now rewrite H. Qed.

Lemma collected_missing w directory recursive suffixes :
  stat w directory = None -> collected w directory recursive suffixes = [].
Proof.
  intros H. unfold collected.
  induction suffixes as [|s l IH]; [reflexivity|].
  cbn [flat_map]. now rewrite !globbed_missing, IH.
Qed.

(** On a root that the operating system reports as missing the locator
    returns the empty list, and the batch raises [FileNotFoundError]; on a
    refused root the batch raises the error of the operating system. *)
Lemma find_images_missing self directory recursive w :
  stat w directory = None -> refusal w directory = None ->
  find_images_in_directory self directory recursive w = (Returns [], w).
Proof.
  intros H Hr. rewrite find_images_in_directory_spec by exact Hr.
  unfold located. now rewrite collected_missing.
Qed.

Lemma batch_missing self source w :
  stat w source = None -> refusal w source = None ->
  batch self source w
  = (Raises (mkExn FileNotFoundError
               (lit "Source path not found: " ++ str_of_Path source)), w).
Proof.
  intros H Hr. unfold batch_extract_text, bind, path_exists, raise. now rewrite Hr, H.
Qed.

Lemma batch_refused self source w e :
  refusal w source = Some e -> batch self source w = (Raises e, w).
Proof.
  intros Hr. unfold batch_extract_text, bind, path_exists. now rewrite Hr.
Qed.

(** C4, as amended.  For a root that does not exist and that the
    operating system reports as missing, the locator returns the empty
    list and raises nothing; it is [batch_extract_text] that checks the
    path first and raises [FileNotFoundError].  For a root that the
    operating system refuses to look at (a name that is too long, a
    directory that may not be searched) the first [glob] of the locator
    raises the error of the operating system, and so does the batch.  The
    locator never changes the world. *)
Theorem locator_on_missing_root self directory recursive w :
  snd (find_images_in_directory self directory recursive w) = w
  /\ (stat w directory = None ->
      match refusal w directory with
      | None =>
          find_images_in_directory self directory recursive w = (Returns [], w)
          /\ batch self directory w
             = (Raises (mkExn FileNotFoundError
                          (lit "Source path not found: " ++ str_of_Path directory)), w)
      | Some e =>
          (supported_formats self <> [] ->
           find_images_in_directory self directory recursive w = (Raises e, w))
          /\ batch self directory w = (Raises e, w)
      end).
Proof.
  split; [apply find_images_keeps_world|].
  intros H. destruct (refusal w directory) as [e|] eqn:Hr.
  - split; [intros Hne; now apply find_images_refused | now apply batch_refused].
  - split; [now apply find_images_missing | now apply batch_missing].
Qed.

(** The loop of the batch adds one result per image, in order, whatever
    the outcome of each extraction. *)
Lemma batch_loop self total images :
  forall k acc w,
  exists results w',
    for_each (combine (seq k (length images)) images)
      (fun i_image_file : nat * Path =>
         lift (logger_info (lit "Processing " ++ str_of_nat (fst i_image_file) ++ lit "/"
                            ++ str_of_nat total ++ lit ": "
                            ++ name (snd i_image_file))) ;;
         result <- lift (extract self (snd i_image_file)) ;;
         set_local (fun results : list dict => results ++ [result]))
      (acc, w)
    = (Returns tt, (acc ++ results, w'))
    /\ fs w' = fs w /\ cwd w' = cwd w /\ stdout w' = stdout w
    /\ refusal w' = refusal w
    /\ Forall2 (extracted_from self (fs w) (cwd w) (refusal w)) images results.
Proof.
  induction images as [|image images IH]; intros k acc w.
  - exists [], w. cbn. rewrite app_nil_r. repeat split. constructor.
  - cbn [length seq combine for_each].
    unfold bind at 1. unfold bind at 1. unfold lift at 1.
    unfold logger_info at 1. unfold logger_log at 1. unfold modify at 1. cbn [fst snd].
    unfold bind at 1. unfold lift at 1. cbn [fst snd].
    match goal with |- context [extract self image ?w1] =>
      destruct (extract_returns repr_str decode convert_pixels ocr self image w1)
        as (r & l & msg & E & Hr & Hp & Hn); rewrite E
    end.
    unfold set_local at 1. cbn [fst snd].
    match goal with |- context [for_each _ _ (?a, ?w2)] =>
      destruct (IH (S k) a w2) as (results & w' & E' & Hfs & Hcwd & Hout & Hre & Hall)
    end.
    exists (r :: results), w'. rewrite E'. rewrite <- app_assoc.
    repeat split; try assumption.
    constructor; [|assumption].
    repeat split; try assumption.
    eexists. split; [|split; [|split; [|rewrite E; reflexivity]]]; reflexivity.
Qed.

(** The batch over an existing directory. *)
Lemma batch_on_directory self source w entries :
  stat w source = Some (Dir entries) ->
  exists images results w',
    find_images_in_directory self source true w = (Returns images, w)
    /\ batch self source w = (Returns results, w')
    /\ length results = length images
    /\ Forall2 (extracted_from self (fs w) (cwd w) (refusal w)) images results.
Proof.
  intros Hs. exists (located w self source true).
  unfold batch_extract_text. unfold bind at 1. unfold path_exists.
  rewrite (@stat_Some_refusal w source _ Hs), Hs. cbn [negb].
  unfold bind at 1. unfold path_is_file.
  rewrite (@stat_Some_refusal w source _ Hs), Hs.
  unfold bind at 1.
  rewrite find_images_in_directory_spec by exact (@stat_Some_refusal w source _ Hs).
  destruct (located w self source true) as [|image images] eqn:El.
  - exists [], (logged WARNING (lit "No image files found in " ++ str_of_Path source) w).
    repeat split. constructor.
  - unfold bind at 1. unfold logger_info at 1, logger_log, modify.
    unfold with_local. unfold bind at 1. unfold enumerate.
    match goal with |- context [for_each _ _ (?a, ?w2)] =>
      destruct (batch_loop self (length (image :: images)) (image :: images) 1 a w2)
        as (results & w' & E' & _ & _ & _ & _ & Hall)
    end.
    rewrite E'. exists results, w'. cbn [app get_local fst snd].
    repeat split; [|assumption].
    symmetry. eapply Forall2_length. eassumption.
Qed.

(** C3.  For a source that is an existing directory, [batch_extract_text]
    returns one ExtractionResult per image the locator finds there, in
    the locator's order: the i-th result is what the extractor returns for
    the i-th image, whether or not that or any other extraction fails. *)
Theorem batch_returns_one_result_per_image self source w entries :
  stat w source = Some (Dir entries) ->
  exists images results w',
    find_images_in_directory self source true w = (Returns images, w)
    /\ batch self source w = (Returns results, w')
    /\ length results = length images
    /\ Forall2 (extracted_from self (fs w) (cwd w) (refusal w)) images results.
Proof. apply batch_on_directory. Qed.

End LocatorProperties.

(** ** The filesystem *)

Lemma alist_get_set_same {A} (es : list (str * A)) k v :
  alist_get (alist_set es k v) k = Some v.
Proof.
  induction es as [|[k' v'] es IH]; cbn.
  - now rewrite str_eqb_refl.
  - destruct (str_eqb k' k) eqn:E; cbn; rewrite E; [reflexivity | exact IH].
Qed.

Lemma alist_get_set_other {A} (es : list (str * A)) k k' v :
  k <> k' -> alist_get (alist_set es k v) k' = alist_get es k'.
Proof.
  intros Hk. induction es as [|[k0 v0] es IH]; cbn.
  - apply str_eqb_neq in Hk. now rewrite Hk.
  - destruct (str_eqb k0 k) eqn:E; cbn.
    + apply str_eqb_eq in E. subst k0.
      apply str_eqb_neq in Hk. now rewrite Hk.
    + destruct (str_eqb k0 k'); [reflexivity | exact IH].
Qed.

Lemma lookup_app root a b :
  lookup root (a ++ b)
  = match lookup root a with Some n => lookup n b | None => None end.
Proof.
  revert root. induction a as [|c a IH]; intros root; [reflexivity|].
  cbn. destruct root as [content|es]; [reflexivity|].
  destruct (alist_get es c); [apply IH | reflexivity].
Qed.

Lemma lookup_File_nonempty content c pos : lookup (File content) (c :: pos) = None.
Proof. reflexivity. Qed.

(** What was put at a location is found there, provided the location is
    the root or lies in a directory. *)
Lemma lookup_update_same q : forall root new,
  q = [] \/ parent_is_dir root q = true ->
  lookup (update root q new) q = Some new.
Proof.
  induction q as [|c q IH]; intros root new H; [reflexivity|].
  destruct H as [H|H]; [discriminate|].
  unfold parent_is_dir in H.
  destruct q as [|c' q'].
  - cbn in H. destruct root as [content|es]; [discriminate|].
    cbn. now rewrite alist_get_set_same.
  - change (removelast (c :: c' :: q')) with (c :: removelast (c' :: q')) in H.
    destruct root as [content|es]; [discriminate H|].
    cbn [lookup] in H.
    cbn [update lookup].
    destruct (alist_get es c) as [n'|] eqn:En; [|discriminate H].
    cbn [lookup]. rewrite alist_get_set_same.
    apply IH. right. unfold parent_is_dir. exact H.
Qed.

(** Putting something where no directory was keeps every directory a
    directory. *)
Lemma update_keeps_dirs q : forall root new pos,
  ~ is_dir_at root q -> is_dir_at root pos -> is_dir_at (update root q new) pos.
Proof.
  induction q as [|c q IH]; intros root new pos Hq Hpos.
  - exfalso. apply Hq. destruct Hpos as [es Hes].
    destruct pos as [|c0 pos]; [exists es; exact Hes|].
    destruct root as [content|es']; [discriminate Hes|].
    exists es'. reflexivity.
  - destruct root as [content|es]; [exact Hpos|].
    cbn [update].
    destruct pos as [|c0 pos].
    { destruct q; [|destruct (alist_get es c)]; eexists; reflexivity. }
    destruct Hpos as [es0 Hes0]. cbn [lookup] in Hes0.
    destruct (str_eqb c c0) eqn:Ec.
    + apply str_eqb_eq in Ec. subst c0.
      destruct (alist_get es c) as [n'|] eqn:En; [|discriminate Hes0].
      destruct q as [|c' q'].
      * exfalso. apply Hq. unfold is_dir_at. cbn [lookup]. rewrite En.
        destruct n' as [content|es']; [|eexists; reflexivity].
        destruct pos; discriminate Hes0.
      * unfold is_dir_at. cbn [lookup]. rewrite alist_get_set_same.
        apply IH; [|exists es0; exact Hes0].
        intros [es1 H1]. apply Hq. exists es1. cbn [lookup]. now rewrite En.
    + assert (Hne : c <> c0) by now apply str_eqb_neq.
      exists es0.
      destruct q as [|c' q']; [|destruct (alist_get es c) as [n'|]];
        cbn [lookup]; try rewrite (alist_get_set_other _ _ Hne); exact Hes0.
Qed.

(** An entry of a directory is untouched by an update of another entry
    of the same directory. *)
Lemma lookup_update_sibling q : forall root new f g,
  f <> g ->
  lookup (update root (q ++ [f]) new) (q ++ [g]) = lookup root (q ++ [g]).
Proof.
  induction q as [|c q IH]; intros root new f g Hfg.
  - cbn. destruct root as [content|es]; [reflexivity|].
    cbn. now rewrite (alist_get_set_other _ _ Hfg).
  - cbn [app update].
    destruct root as [content|es]; [reflexivity|].
    destruct (q ++ [f]) as [|c' q'] eqn:Eq; [now destruct q|].
    destruct (alist_get es c) as [n'|] eqn:En; [|reflexivity].
    cbn [lookup]. rewrite alist_get_set_same, En. rewrite <- Eq. now apply IH.
Qed.

(** Resolution goes through directories only, so it is unchanged by an
    update at a location that held no directory. *)
Lemma walk_update comps : forall root cur x new q,
  ~ is_dir_at root x ->
  walk root cur comps = Found q ->
  walk (update root x new) cur comps = Found q.
Proof.
  induction comps as [|c cs IH]; intros root cur x new q Hx Hw; [exact Hw|].
  cbn [walk] in *.
  destruct (lookup root cur) as [[content|es]|] eqn:El; try discriminate.
  destruct (update_keeps_dirs new Hx (ex_intro _ es El)) as [es' El'].
  rewrite El'.
  destruct (str_eqb c dotdot); now apply IH.
Qed.

Lemma walk_app a : forall root cur b,
  walk root cur (a ++ b)
  = match walk root cur a with
    | Found q => walk root q b
    | other => other
    end.
Proof.
  induction a as [|c a IH]; intros root cur b; [reflexivity|].
  cbn [app walk].
  destruct (lookup root cur) as [[content|es]|]; try reflexivity.
  destruct (str_eqb c dotdot); apply IH.
Qed.

(** ** Paths *)

Lemma split_slash_no_slash s : no_slash s -> split_slash s = [s].
Proof.
  induction 1 as [|c s Hc Hs IH]; [reflexivity|].
  cbn. apply N.eqb_neq in Hc. now rewrite Hc, IH.
Qed.

Lemma split_slash_parts s : Forall no_slash (split_slash s).
Proof.
  induction s as [|c s IH]; cbn.
  - repeat constructor.
  - destruct (N.eqb c slash) eqn:E.
    + constructor; [constructor | exact IH].
    + apply N.eqb_neq in E.
      destruct (split_slash s) as [|w ws].
      * repeat constructor. exact E.
      * inversion IH; subst. constructor; [constructor|]; assumption.
Qed.

Lemma last_Forall {A} (P : A -> Prop) l d : Forall P l -> P d -> P (last l d).
Proof.
  induction 1 as [|x l Hx Hl IH]; intros Hd; [exact Hd|].
  cbn. destruct l; [exact Hx | now apply IH].
Qed.

Lemma name_no_slash s : no_slash (name (Path_of_str s)).
Proof.
  unfold name, Path_of_str. cbn [parts].
  apply last_Forall; [|constructor].
  apply Forall_forall. intros x Hx. apply filter_In in Hx as [Hx _].
  revert x Hx. apply Forall_forall. apply split_slash_parts.
Qed.

Lemma stem_of_name_no_slash nm : no_slash nm -> no_slash (stem_of_name nm).
Proof.
  intros H. unfold stem_of_name.
  destruct (rfind_dot nm) as [i|]; [|exact H].
  destruct (_ && _)%bool; [|exact H].
  unfold no_slash in H. rewrite <- (firstn_skipn i nm) in H.
  now apply Forall_app in H as [H1 _].
Qed.

Lemma str_eqb_length a b : str_eqb a b = true -> length a = length b.
Proof. intros H. apply str_eqb_eq in H. now subst. Qed.

(** The name of a text file is a single path component, and is not
    ['..']. *)
Lemma text_file_name_path st :
  no_slash st ->
  Path_of_str (st ++ lit ".txt") = {| is_abs := false; parts := [st ++ lit ".txt"] |}
  /\ str_eqb (st ++ lit ".txt") dotdot = false.
Proof.
  intros Hs.
  assert (Hlen : length (st ++ lit ".txt") = length st + 4).
  { now rewrite length_app. }
  assert (Hns : no_slash (st ++ lit ".txt")).
  { apply Forall_app. split; [exact Hs|]. repeat constructor; discriminate. }
  split.
  - unfold Path_of_str. rewrite (split_slash_no_slash Hns). cbn [filter].
    assert (Hk : keep_part (st ++ lit ".txt") = true).
    { unfold keep_part.
      destruct (str_eqb (st ++ lit ".txt") []) eqn:E1.
      { apply str_eqb_length in E1. rewrite Hlen in E1. cbn in E1. lia. }
      destruct (str_eqb (st ++ lit ".txt") [dot]) eqn:E2.
      { apply str_eqb_length in E2. rewrite Hlen in E2. cbn in E2. lia. }
      reflexivity. }
    rewrite Hk. f_equal.
    destruct st as [|c st]; [reflexivity|].
    inversion Hs; subst. cbn. now apply N.eqb_neq.
  - destruct (str_eqb (st ++ lit ".txt") dotdot) eqn:E; [|reflexivity].
    apply str_eqb_length in E. rewrite Hlen in E. cbn in E. lia.
Qed.

(** ** save_results *)

Section SinkProperties.

Variable repr_str : str -> str.

Local Notation "'save'" := (save_results repr_str).

(** C9.  With an output format other than ['console'], ['json'] and
    ['text'], [save_results] returns normally and leaves the world as it
    was: no file, no directory, nothing printed, nothing logged. *)
Theorem save_results_unknown_format results output_format output_path w :
  output_format <> lit "console" ->
  output_format <> lit "json" ->
  output_format <> lit "text" ->
  save results output_format output_path w = (Returns tt, w).
Proof.
  intros Hc Hj Ht. unfold save_results.
  apply str_eqb_neq in Hc, Hj, Ht. now rewrite Hc, Hj, Ht.
Qed.

Lemma ExtractionResult_fields r :
  is_ExtractionResult r = true ->
  exists fp fn b t ev,
    dict_get r (lit "file_path") = Some (VStr fp)
    /\ dict_get r (lit "file_name") = Some (VStr fn)
    /\ dict_get r (lit "success") = Some (VBool b)
    /\ dict_get r (lit "text") = Some (VStr t)
    /\ dict_get r (lit "error") = Some ev.
Proof.
  unfold is_ExtractionResult. intros H.
  destruct (dict_get r (lit "file_path")) as [[| | |fp| | |]|]; try discriminate H.
  destruct (dict_get r (lit "file_name")) as [[| | |fn| | |]|]; try discriminate H.
  destruct (dict_get r (lit "success")) as [[|b| | | | |]|]; try discriminate H.
  destruct (dict_get r (lit "text")) as [[| | |t| | |]|]; try discriminate H.
  destruct (dict_get r (lit "error")) as [ev|]; try discriminate H.
  now exists fp, fn, b, t, ev.
Qed.

Lemma save_results_text results out w :
  save results (lit "text") out w
  = (Path_mkdir_exist_ok repr_str (text_destination out) ;;
     for_each results (text_sink_step repr_str (text_destination out)) ;;
     logger_info (lit "Text files saved to " ++ str_of_Path (text_destination out))) w.
Proof. reflexivity. Qed.

(** For an ExtractionResult the loop body writes the text file of a kept
    result and does nothing for the others. *)
Lemma text_sink_step_spec dest r w :
  is_ExtractionResult r = true ->
  text_sink_step repr_str dest r w
  = if kept r
    then write_text repr_str (joinpath dest (Path_of_str (text_file_name r))) (text_of r) w
    else (Returns tt, w).
Proof.
  intros H. destruct (ExtractionResult_fields r H) as (fp & fn & b & t & ev & _ & Hn & Hb & Ht & _).
  unfold text_sink_step, kept, success_of, text_of, text_file_name, file_name_of, getitem.
  rewrite Hn, Hb, Ht.
  unfold bind, ret, when, Path_of_value, open_and_write.
  destruct b; cbn [truthy andb negb]; [|reflexivity].
  destruct (str_eqb t []); reflexivity.
Qed.

Lemma removelast_snoc {A} (l : list A) x : removelast (l ++ [x]) = l.
Proof. apply removelast_last. Qed.

Lemma parent_is_dir_child root q f :
  is_dir_at root q -> parent_is_dir root (q ++ [f]) = true.
Proof.
  intros [es H]. unfold parent_is_dir.
  destruct (q ++ [f]) eqn:E; [now destruct q|].
  rewrite <- E, removelast_snoc, H. reflexivity.
Qed.

(** A write that returns has written the whole text. *)
Lemma write_text_returned p t w w1 :
  write_text repr_str p t w = (Returns tt, w1) ->
  write_file repr_str p t None w = (Returns tt, w1).
Proof.
  unfold write_text. destruct (encodable t); [trivial|].
  unfold write_file. intros H.
  destruct (refusal w p); [discriminate H|].
  destruct (resolve w p) as [q| |]; try discriminate H.
  destruct (lookup (fs w) q) as [[content|es]|]; try discriminate H.
  destruct (parent_is_dir (fs w) q); discriminate H.
Qed.

(** Writing the text file [st.txt] under a destination that resolves to
    the directory at [q]: when the write returns, the entry was not a
    directory and it now holds the text. *)
Lemma write_text_in_dir dest q st t w w1 :
  no_slash st ->
  resolve w dest = Found q ->
  is_dir_at (fs w) q ->
  write_text repr_str (joinpath dest (Path_of_str (st ++ lit ".txt"))) t w
  = (Returns tt, w1) ->
  w1 = set_fs w (update (fs w) (q ++ [st ++ lit ".txt"]) (File t))
  /\ ~ is_dir_at (fs w) (q ++ [st ++ lit ".txt"]).
Proof.
  intros Hst Hres Hdir Hrun. apply write_text_returned in Hrun.
  destruct (text_file_name_path Hst) as [Hp Hdd].
  unfold write_file, resolve in Hrun.
  destruct (refusal w _); [discriminate Hrun|].
  rewrite Hp in Hrun. unfold joinpath in Hrun. cbn [is_abs parts] in Hrun.
  unfold resolve in Hres. rewrite walk_app, Hres in Hrun.
  destruct Hdir as [es Hes]. cbn [walk] in Hrun. rewrite Hes, Hdd in Hrun.
  rewrite (parent_is_dir_child _ (ex_intro _ es Hes)) in Hrun.
  cbv beta zeta in Hrun.
  match type of Hrun with
  | match ?x with _ => _ end = _ => destruct x as [[content|es']|] eqn:Hl
  end;
    try discriminate Hrun; injection Hrun as <-;
    (split; [reflexivity|]); intros [es2 Hes2];
    pose proof (eq_trans (eq_sym Hl) Hes2) as Hno; discriminate Hno.
Qed.

Lemma text_file_name_stem r :
  exists st, no_slash st /\ text_file_name r = st ++ lit ".txt".
Proof.
  eexists. split; [|reflexivity].
  apply stem_of_name_no_slash, name_no_slash.
Qed.

(** The loop of the text sink: when it completes, the destination is
    still the same directory, and each of its entries is the text of the
    last kept result with that file name, or what it was before. *)
Lemma text_loop dest q results : forall w w',
  Forall (fun r => is_ExtractionResult r = true) results ->
  resolve w dest = Found q ->
  is_dir_at (fs w) q ->
  for_each results (text_sink_step repr_str dest) w = (Returns tt, w') ->
  resolve w' dest = Found q
  /\ is_dir_at (fs w') q
  /\ cwd w' = cwd w /\ stdout w' = stdout w /\ log w' = log w
  /\ forall nm,
       lookup (fs w') (q ++ [nm])
       = match written results nm with
         | Some t => Some (File t)
         | None => lookup (fs w) (q ++ [nm])
         end.
Proof.
  induction results as [|r results IH]; intros w w' Hall Hres Hdir Hrun.
  - cbn in Hrun. injection Hrun as <-. repeat split; assumption.
  - inversion Hall as [|r0 l0 Hr Hrest]; subst.
    cbn [for_each] in Hrun. unfold bind at 1 in Hrun.
    rewrite (text_sink_step_spec dest r w Hr) in Hrun.
    cbn [written].
    destruct (kept r) eqn:Ek.
    + destruct (text_file_name_stem r) as (st & Hst & Hf). rewrite Hf in *.
      destruct (write_text repr_str (joinpath dest (Path_of_str (st ++ lit ".txt")))
                  (text_of r) w) as [[[]|e] w1] eqn:Hw; [|discriminate Hrun].
      destruct (@write_text_in_dir dest q st (text_of r) w w1 Hst Hres Hdir Hw)
        as [-> Hnd].
      set (f := st ++ lit ".txt") in *.
      assert (Hrun' : for_each results (text_sink_step repr_str dest)
                        (set_fs w (update (fs w) (q ++ [f]) (File (text_of r))))
                      = (Returns tt, w')) by exact Hrun.
      clear Hrun.
      apply IH in Hrun'; [|assumption| |].
      * destruct Hrun' as (R1 & R2 & R3 & R4 & R5 & R6).
        repeat split; try assumption.
        intros nm. rewrite R6. cbn [fs set_fs].
        destruct (written results nm); [reflexivity|].
        cbn [andb]. destruct (str_eqb f nm) eqn:Efn.
        -- apply str_eqb_eq in Efn. subst nm.
           apply lookup_update_same. right. now apply parent_is_dir_child.
        -- apply str_eqb_neq in Efn. now apply lookup_update_sibling.
      * unfold resolve in *. cbn [fs cwd set_fs]. now apply walk_update.
      * cbn [fs set_fs]. now apply update_keeps_dirs.
    + apply IH in Hrun; try assumption.
      destruct Hrun as (R1 & R2 & R3 & R4 & R5 & R6).
      repeat split; try assumption.
      intros nm. rewrite R6. destruct (written results nm); reflexivity.
Qed.

(** What [mkdir(exist_ok=True)] leaves behind when it returns. *)
Lemma mkdir_returns dest w w1 :
  Path_mkdir_exist_ok repr_str dest w = (Returns tt, w1) ->
  exists q,
    resolve w dest = Found q /\ resolve w1 dest = Found q
    /\ is_dir_at (fs w1) q
    /\ cwd w1 = cwd w /\ stdout w1 = stdout w /\ log w1 = log w
    /\ forall nm, lookup (fs w1) (q ++ [nm]) = lookup (fs w) (q ++ [nm]).
Proof.
  unfold Path_mkdir_exist_ok. intros H.
  destruct (refusal w dest); [discriminate H|].
  destruct (resolve w dest) as [q| |] eqn:Hres; try discriminate H.
  exists q. split; [reflexivity|].
  destruct (lookup (fs w) q) as [[content|es]|] eqn:Hl; try discriminate H.
  - injection H as <-. repeat split; try assumption. now exists es.
  - destruct (parent_is_dir (fs w) q) eqn:Hp; [|discriminate H].
    injection H as <-.
    assert (Hnd : ~ is_dir_at (fs w) q).
    { intros [es Hes]. rewrite Hes in Hl. discriminate Hl. }
    repeat split.
    + unfold resolve in *. cbn [fs cwd set_fs]. now apply walk_update.
    + exists []. cbn [fs set_fs]. apply lookup_update_same. now right.
    + intros nm. cbn [fs set_fs]. rewrite !lookup_app, Hl.
      rewrite lookup_update_same by now right. reflexivity.
Qed.

Lemma written_from results nm t :
  written results nm = Some t ->
  exists r, In r results /\ kept r = true /\ text_file_name r = nm /\ text_of r = t.
Proof.
  induction results as [|r results IH]; [discriminate|].
  cbn [written]. destruct (written results nm) as [t'|].
  - intros H. destruct (IH H) as (r' & Hin & Hrest). exists r'. split; [now right | exact Hrest].
  - destruct (kept r) eqn:Ek; cbn [andb]; [|discriminate].
    destruct (str_eqb (text_file_name r) nm) eqn:En; [|discriminate].
    intros H. injection H as <-. apply str_eqb_eq in En.
    exists r. repeat split; [now left | assumption..].
Qed.

Lemma written_kept results r :
  In r results -> kept r = true ->
  exists t, written results (text_file_name r) = Some t.
Proof.
  induction results as [|r0 results IH]; [contradiction|].
  intros Hin Hk. cbn [written].
  destruct (written results (text_file_name r)) as [t|] eqn:Ew; [now exists t|].
  destruct Hin as [->|Hin].
  - rewrite Hk, str_eqb_refl. cbn. now eexists.
  - destruct (IH Hin Hk) as [t Ht]. discriminate Ht.
Qed.

(** C6, as amended.  When the text sink completes on a sequence of
    ExtractionResults, the destination is a directory; every successful
    result with a non-empty text has its file there, named by the stem of
    its image followed by [.txt]; every file the sink wrote comes from
    such a result and holds the text of the last result with that stem
    (results that share a stem share the file); and all other entries of
    the destination, those of failed or empty results included, are as
    they were before. *)
Theorem text_sink_files results output_path w w' :
  Forall (fun r => is_ExtractionResult r = true) results ->
  save results (lit "text") output_path w = (Returns tt, w') ->
  exists q,
    resolve w (text_destination output_path) = Found q
    /\ resolve w' (text_destination output_path) = Found q
    /\ is_dir_at (fs w') q
    /\ (forall r, In r results -> kept r = true ->
        exists t, lookup (fs w') (q ++ [text_file_name r]) = Some (File t))
    /\ (forall nm,
          lookup (fs w') (q ++ [nm])
          = match written results nm with
            | Some t => Some (File t)
            | None => lookup (fs w) (q ++ [nm])
            end)
    /\ (forall nm t, written results nm = Some t ->
        exists r, In r results /\ kept r = true
                  /\ text_file_name r = nm /\ text_of r = t).
Proof.
  intros Hall Hrun. rewrite save_results_text in Hrun.
  unfold bind at 1 in Hrun.
  destruct (Path_mkdir_exist_ok repr_str (text_destination output_path) w)
    as [[[]|e] w1] eqn:Hmk; [|discriminate Hrun].
  destruct (mkdir_returns _ _ Hmk) as (q & Hres & Hres1 & Hdir1 & _ & _ & _ & Hsame).
  unfold bind at 1 in Hrun.
  destruct (for_each results (text_sink_step repr_str (text_destination output_path)) w1)
    as [[[]|e] w2] eqn:Hloop; [|discriminate Hrun].
  unfold logger_info, logger_log, modify in Hrun. injection Hrun as <-.
  destruct (@text_loop _ _ _ _ _ Hall Hres1 Hdir1 Hloop) as (R1 & R2 & _ & _ & _ & R6).
  assert (Hent : forall nm,
             lookup (fs w2) (q ++ [nm])
             = match written results nm with
               | Some t => Some (File t)
               | None => lookup (fs w) (q ++ [nm])
               end).
  { intros nm. rewrite R6, Hsame. reflexivity. }
  exists q. cbn [fs].
  split; [exact Hres|]. split; [exact R1|]. split; [exact R2|].
  split; [|split; [exact Hent|]].
  - intros r Hin Hk. destruct (written_kept _ _ Hin Hk) as [t Ht].
    exists t. now rewrite Hent, Ht.
  - intros nm t. apply written_from.
Qed.

End SinkProperties.

(** ** main *)

Lemma encodable_app a b : encodable (a ++ b) = (encodable a && encodable b)%bool.
Proof. apply forallb_app. Qed.

Lemma encodable_join sep l :
  encodable (join sep l) = true -> Forall (fun x => encodable x = true) l.
Proof.
  induction l as [|x l IH]; intros H; [constructor|].
  destruct l as [|y l].
  - constructor; [exact H | constructor].
  - change (join sep (x :: y :: l)) with (x ++ sep ++ join sep (y :: l)) in H.
    rewrite !encodable_app in H.
    apply andb_true_iff in H as [Hx H]. apply andb_true_iff in H as [_ H].
    constructor; [exact Hx | now apply IH].
Qed.

(** A path that can be printed has a name that can be printed. *)
Lemma encodable_name p : encodable (str_of_Path p) = true -> encodable (name p) = true.
Proof.
  unfold str_of_Path, name. intros H.
  destruct (parts p) as [|x l] eqn:Hp; [reflexivity|].
  rewrite encodable_app in H. apply andb_true_iff in H as [_ H].
  apply encodable_join in H.
  apply (@last_Forall _ (fun x => encodable x = true)); [exact H | reflexivity].
Qed.

Section MainProperties.

Variable repr_str : str -> str.
Variable decode : Path -> str -> outcome Image.
Variable convert_pixels : Image -> str -> outcome (list N).
Variable ocr : Image -> str -> outcome str.

Local Notation "'extract'" :=
  (extract_text_from_image repr_str decode convert_pixels ocr).
Local Notation "'batch'" :=
  (batch_extract_text repr_str decode convert_pixels ocr).
Local Notation "'run_extract'" :=
  (main_extract repr_str decode convert_pixels ocr).
Local Notation "'run_main'" :=
  (main repr_str decode convert_pixels ocr).
Local Notation "'report'" := (main_report repr_str).
Local Notation "'save'" := (save_results repr_str).

Lemma print_encodable s w :
  encodable s = true ->
  print s w
  = (Returns tt,
     {| fs := fs w; cwd := cwd w; stdout := stdout w ++ [s]; log := log w;
        refusal := refusal w |}).
Proof. intros H. unfold print. now rewrite H. Qed.

(** The batch raises only for a source that does not exist: the
    [FileNotFoundError] of its own check when the operating system reports
    the source as missing, the error of the operating system when it
    refuses the path.  Otherwise it returns ExtractionResults. *)
Lemma batch_cases self source w :
  (stat w source = None
   /\ batch self source w
      = (Raises match refusal w source with
                | Some e => e
                | None => mkExn FileNotFoundError
                            (lit "Source path not found: " ++ str_of_Path source)
                end, w))
  \/ (exists results w',
        batch self source w = (Returns results, w')
        /\ Forall (fun r => is_ExtractionResult r = true) results).
Proof.
  destruct (stat w source) as [[content|entries]|] eqn:Hs.
  - right. unfold batch_extract_text. unfold bind at 1. unfold path_exists.
    rewrite (@stat_Some_refusal w source _ Hs), Hs. cbn [negb].
    unfold bind at 1. unfold path_is_file.
    rewrite (@stat_Some_refusal w source _ Hs), Hs.
    unfold bind at 1.
    destruct (extract_returns repr_str decode convert_pixels ocr self source w)
      as (r & l & msg & E & Hr & _).
    rewrite E. exists [r], (logged l msg w). split; [reflexivity|].
    now constructor.
  - right.
    destruct (batch_on_directory repr_str decode convert_pixels ocr
                self source w Hs) as (images & results & w' & _ & E & _ & Hall).
    exists results, w'. split; [exact E|].
    clear E. induction Hall as [|image r images results Hr Hrest IH]; constructor.
    + apply Hr.
    + exact IH.
  - left. split; [reflexivity|].
    destruct (refusal w source) as [e|] eqn:Hr.
    + eapply batch_refused. exact Hr.
    + now apply batch_missing.
Qed.

(** The extraction stage of [main]: it raises only in batch mode, for a
    source directory that does not exist. *)
Lemma main_extract_cases args w :
  ((single args = None \/ single args = Some [])
   /\ stat w (Path_of_str (source_dir args)) = None
   /\ run_extract (init (arg_tesseract_config args)) args w
      = (Raises match refusal w (Path_of_str (source_dir args)) with
                | Some e => e
                | None => mkExn FileNotFoundError
                            (lit "Source path not found: "
                             ++ str_of_Path (Path_of_str (source_dir args)))
                end, w))
  \/ (exists results w',
        run_extract (init (arg_tesseract_config args)) args w = (Returns results, w')
        /\ Forall (fun r => is_ExtractionResult r = true) results).
Proof.
  unfold main_extract.
  destruct (single args) as [[|c s]|] eqn:Es.
  - destruct (batch_cases (init (arg_tesseract_config args))
                (Path_of_str (source_dir args)) w) as [[Hs E]|(results & w' & E & Hall)].
    + left. split; [now right|]. now split.
    + right. now exists results, w'.
  - right. unfold bind at 1.
    destruct (extract_returns repr_str decode convert_pixels ocr
                (init (arg_tesseract_config args)) (Path_of_str (c :: s)) w)
      as (r & l & msg & E & Hr & _).
    rewrite E. exists [r], (logged l msg w). split; [reflexivity|]. now constructor.
  - destruct (batch_cases (init (arg_tesseract_config args))
                (Path_of_str (source_dir args)) w) as [[Hs E]|(results & w' & E & Hall)].
    + left. split; [now left|]. now split.
    + right. now exists results, w'.
Qed.

Lemma failed_result_is_ExtractionResult p msg :
  is_ExtractionResult (failed_result p msg) = true.
Proof. reflexivity. Qed.

Lemma failed_result_fields p msg :
  dict_get (failed_result p msg) (lit "file_name") = Some (VStr (name p))
  /\ dict_get (failed_result p msg) (lit "success") = Some (VBool false)
  /\ dict_get (failed_result p msg) (lit "error") = Some (VStr msg).
Proof. repeat split. Qed.

(** [main] on one failed result in console mode, when the name and the
    message can be printed: nothing raises, and the failure is printed,
    then the summary with its list of failed files. *)
Lemma report_failure_on_console args p msg w :
  format args = lit "console" ->
  encodable (name p) = true ->
  encodable msg = true ->
  exists w',
    report args [failed_result p msg] w = (Returns tt, w')
    /\ stdout w' = stdout w ++ console_report_of_failure (name p) msg.
Proof.
  intros Hf Hn Hm.
  destruct (failed_result_fields p msg) as (Fn & Fb & Fe).
  assert (E1 : encodable (lit "File: " ++ name p) = true)
    by (rewrite encodable_app, Hn; reflexivity).
  assert (E2 : encodable (lit "ERROR: " ++ msg) = true)
    by (rewrite encodable_app, Hm; reflexivity).
  assert (E3 : encodable (lit "  - " ++ name p ++ lit ": " ++ msg) = true)
    by (rewrite !encodable_app, Hn, Hm; reflexivity).
  unfold main_report. rewrite Hf.
  change (save_results repr_str [failed_result p msg] (lit "console"))
    with (fun out : option Path =>
            for_each [failed_result p msg] (fun result =>
              print (newline :: rule) ;;
              file_name <- getitem repr_str result (lit "file_name") ;;
              print (lit "File: " ++ py_str repr_str file_name) ;;
              print rule ;;
              success <- getitem repr_str result (lit "success") ;;
              if truthy success then
                text <- getitem repr_str result (lit "text") ;;
                print (py_str repr_str text) ;;
                text' <- getitem repr_str result (lit "text") ;;
                when (negb (truthy text')) (print (lit "(No text found)"))
              else
                error <- getitem repr_str result (lit "error") ;;
                print (lit "ERROR: " ++ py_str repr_str error))).
  cbv beta. cbn [for_each count_successful].
  unfold bind at 1. unfold bind at 1. unfold bind at 1.
  rewrite print_encodable by reflexivity. cbn [fs cwd stdout log refusal].
  unfold bind at 1. unfold getitem at 1. rewrite Fn. unfold ret at 1.
  unfold bind at 1. cbn [py_str]. rewrite print_encodable by exact E1.
  cbn [fs cwd stdout log refusal].
  unfold bind at 1. rewrite print_encodable by reflexivity.
  cbn [fs cwd stdout log refusal].
  unfold bind at 1. unfold getitem at 1. rewrite Fb. unfold ret at 1.
  cbn [truthy].
  unfold bind at 1. unfold getitem at 1. rewrite Fe. unfold ret at 1.
  cbn [py_str]. rewrite print_encodable by exact E2.
  cbn [fs cwd stdout log refusal].
  unfold ret at 1.
  unfold bind at 1. unfold bind at 1. unfold getitem at 1. rewrite Fb.
  unfold ret at 1. unfold bind at 1. unfold ret at 1. unfold ret at 1.
  cbn [truthy length].
  unfold bind at 1. rewrite print_encodable by reflexivity.
  cbn [fs cwd stdout log refusal].
  unfold bind at 1. rewrite print_encodable by reflexivity.
  cbn [fs cwd stdout log refusal].
  unfold bind at 1. rewrite print_encodable by reflexivity.
  cbn [fs cwd stdout log refusal].
  unfold bind at 1. rewrite print_encodable by reflexivity.
  cbn [fs cwd stdout log refusal].
  match goal with |- context [when ?c _] => change c with true end.
  cbn [when].
  unfold bind at 1. rewrite print_encodable by reflexivity.
  cbn [fs cwd stdout log refusal for_each].
  unfold bind at 1. unfold bind at 1. unfold getitem at 1. rewrite Fb.
  unfold ret at 1. cbn [truthy negb when].
  unfold bind at 1. unfold getitem at 1. rewrite Fn. unfold ret at 1.
  unfold bind at 1. unfold getitem at 1. rewrite Fe. unfold ret at 1.
  cbn [py_str]. rewrite print_encodable by exact E3.
  cbn [fs cwd stdout log refusal].
  unfold ret at 1.
  eexists. split; [reflexivity|].
  cbn [stdout]. rewrite <- !app_assoc. reflexivity.
Qed.

Lemma main_extract_batch args w :
  single args = None \/ single args = Some [] ->
  run_extract (init (arg_tesseract_config args)) args w
  = batch (init (arg_tesseract_config args)) (Path_of_str (source_dir args)) w.
Proof. unfold main_extract. now intros [-> | ->]. Qed.

Lemma batch_returns_exists self source w results w1 :
  batch self source w = (Returns results, w1) -> stat w source <> None.
Proof.
  intros E Hs. destruct (refusal w source) as [e|] eqn:Hr.
  - erewrite batch_refused in E by exact Hr. discriminate E.
  - erewrite batch_missing in E by assumption. discriminate E.
Qed.


End MainProperties.

(** ** The JSON round trip *)

(** Induction on values, with the property available for the items of a
    tuple, of a list and of a dictionary. *)
Lemma value_induction (P : value -> Prop) :
  P VNone ->
  (forall b, P (VBool b)) ->
  (forall z, P (VInt z)) ->
  (forall s, P (VStr s)) ->
  (forall l, Forall P l -> P (VTuple l)) ->
  (forall l, Forall P l -> P (VList l)) ->
  (forall d, Forall (fun kv => P (snd kv)) d -> P (VDict d)) ->
  forall v, P v.
Proof.
  intros HN HB HI HS HT HL HD.
  fix IH 1. intros [| b | z | s | l | l | d].
  - exact HN.
  - apply HB.
  - apply HI.
  - apply HS.
  - apply HT. induction l as [|x l IHl]; constructor; [apply IH | exact IHl].
  - apply HL. induction l as [|x l IHl]; constructor; [apply IH | exact IHl].
  - apply HD. induction d as [|[k x] d IHd]; constructor; [apply IH | exact IHd].
Qed.

Lemma encode_items_fix lvl l first :
  (fix items (l : list value) (first : bool) : str :=
     match l with
     | [] => []
     | x :: l' =>
         (if first then [] else lit "," ++ newline_indent lvl)
         ++ iterencode x lvl ++ items l' false
     end) l first
  = encode_items lvl l first.
Proof.
  revert first. induction l as [|x l IH]; intros first; [reflexivity|].
  cbn [encode_items]. now rewrite <- IH.
Qed.

Lemma encode_pairs_fix lvl l first :
  (fix items (l : list (str * value)) (first : bool) : str :=
     match l with
     | [] => []
     | (k, v) :: l' =>
         (if first then [] else lit "," ++ newline_indent lvl)
         ++ encode_basestring k ++ lit ": " ++ iterencode v lvl ++ items l' false
     end) l first
  = encode_pairs lvl l first.
Proof.
  revert first. induction l as [|[k v] l IH]; intros first; [reflexivity|].
  cbn [encode_pairs]. now rewrite <- IH.
Qed.

Lemma iterencode_list x l lvl :
  iterencode (VList (x :: l)) lvl
  = lit "[" ++ newline_indent (S lvl) ++ encode_items (S lvl) (x :: l) true
    ++ newline_indent lvl ++ lit "]".
Proof. rewrite <- encode_items_fix. reflexivity. Qed.

Lemma iterencode_tuple l lvl : iterencode (VTuple l) lvl = iterencode (VList l) lvl.
Proof. reflexivity. Qed.

Lemma iterencode_dict kv d lvl :
  iterencode (VDict (kv :: d)) lvl
  = lit "{" ++ newline_indent (S lvl) ++ encode_pairs (S lvl) (kv :: d) true
    ++ newline_indent lvl ++ lit "}".
Proof. rewrite <- encode_pairs_fix. reflexivity. Qed.

Lemma as_json_list l : as_json (VList l) = VList (map as_json l).
Proof. reflexivity. Qed.

Lemma as_json_tuple l : as_json (VTuple l) = VList (map as_json l).
Proof. exact (as_json_list l). Qed.

Lemma as_json_dict d :
  as_json (VDict d) = VDict (map (fun kv => (fst kv, as_json (snd kv))) d).
Proof.
  cbn [as_json]. apply f_equal. induction d as [|[k x] d IH]; [reflexivity|].
  cbn [map fst snd]. now rewrite IH.
Qed.

Lemma well_formed_list l :
  well_formed (VList l) = true -> Forall (fun x => well_formed x = true) l.
Proof.
  cbn [well_formed]. induction l as [|x l IH]; intros H; constructor.
  - now apply andb_true_iff in H.
  - apply IH. now apply andb_true_iff in H.
Qed.

Lemma well_formed_dict d :
  well_formed (VDict d) = true ->
  keys_unique (map fst d) = true /\ Forall (fun kv => well_formed (snd kv) = true) d.
Proof.
  cbn [well_formed]. intros H. apply andb_true_iff in H as [Hk H].
  split; [exact Hk|]. clear Hk.
  induction d as [|[k x] d IH]; constructor.
  - now apply andb_true_iff in H.
  - apply IH. now apply andb_true_iff in H.
Qed.

Lemma vsize_list l :
  vsize (VList l) = S (fold_right (fun x n => S (vsize x + n)) 0 l).
Proof. reflexivity. Qed.

Lemma vsize_dict d :
  vsize (VDict d) = S (fold_right (fun kv n => S (vsize (snd kv) + n)) 0 d).
Proof.
  cbn [vsize]. apply f_equal. induction d as [|[k x] d IH]; [reflexivity|].
  cbn [fold_right snd]. now rewrite IH.
Qed.

(** *** White space *)

Lemma skip_ws_spaces n s : skip_ws (repeat space n ++ s) = skip_ws s.
Proof. induction n as [|n IH]; [reflexivity | exact IH]. Qed.

Lemma skip_ws_indent k s : skip_ws (newline_indent k ++ s) = skip_ws s.
Proof. unfold newline_indent. cbn [app skip_ws]. apply skip_ws_spaces. Qed.

Lemma skip_ws_stop c s : is_ws c = false -> skip_ws (c :: s) = c :: s.
Proof. intros H. cbn. now rewrite H. Qed.

(** *** Strings *)

(** The decoder reads back one escaped character. *)
Lemma scanstring_escape_char c tail :
  scanstring (escape_char c ++ tail) = scanned c (scanstring tail).
Proof.
  unfold escape_char.
  destruct (N.eqb c dquote) eqn:E1; [apply N.eqb_eq in E1; subst; reflexivity|].
  destruct (N.eqb c backslash) eqn:E2; [apply N.eqb_eq in E2; subst; reflexivity|].
  destruct (N.eqb c 8) eqn:E3; [apply N.eqb_eq in E3; subst; reflexivity|].
  destruct (N.eqb c 12) eqn:E4; [apply N.eqb_eq in E4; subst; reflexivity|].
  destruct (N.eqb c 10) eqn:E5; [apply N.eqb_eq in E5; subst; reflexivity|].
  destruct (N.eqb c 13) eqn:E6; [apply N.eqb_eq in E6; subst; reflexivity|].
  destruct (N.eqb c 9) eqn:E7; [apply N.eqb_eq in E7; subst; reflexivity|].
  destruct (N.ltb c 32) eqn:E8.
  - apply N.ltb_lt in E8.
    destruct c as [|p]; [|do 5 (try destruct p as [p|p|])];
      try (exfalso; lia); try discriminate;
      destruct tail as [|? [|? [|? [|? [|? [|? ?]]]]]]; reflexivity.
  - cbn [app scanstring]. rewrite E1, E2, E8. reflexivity.
Qed.

(** The decoder reads back what [encode_basestring] wrote, whatever the
    code points: escaped or written as they are. *)
Lemma scanstring_encoded s rest :
  scanstring (flat_map escape_char s ++ dquote :: rest) = Some (s, rest).
Proof.
  induction s as [|c s IH]; [reflexivity|].
  cbn [flat_map]. rewrite <- app_assoc, scanstring_escape_char, IH. reflexivity.
Qed.

Lemma encode_basestring_app s rest :
  encode_basestring s ++ rest = dquote :: flat_map escape_char s ++ dquote :: rest.
Proof. unfold encode_basestring. cbn [app]. now rewrite <- app_assoc. Qed.

(** *** Numbers *)

Lemma digits_are_digits d : Forall (fun c => is_digit c = true) (digits_of_uint d).
Proof. induction d; constructor; try reflexivity; assumption. Qed.

Lemma uint_of_digits_of_uint d : uint_of_digits (digits_of_uint d) = d.
Proof. induction d; cbn; now rewrite ?IHd. Qed.

Lemma span_digits_app ds rest :
  Forall (fun c => is_digit c = true) ds ->
  match rest with [] => True | c :: _ => is_digit c = false end ->
  span_digits (ds ++ rest) = (ds, rest).
Proof.
  intros Hds Hrest. induction Hds as [|c ds Hc Hds IH].
  - destruct rest as [|c r]; [reflexivity|]. cbn. now rewrite Hrest.
  - cbn [app span_digits]. now rewrite Hc, IH.
Qed.

(** [N.to_uint] writes numbers in normal form. *)
Lemma to_uint_normal n : normal_uint (N.to_uint n).
Proof.
  pose proof (DecimalN.Unsigned.to_of (N.to_uint n)) as H.
  rewrite DecimalN.Unsigned.of_to in H. rewrite H.
  unfold Decimal.unorm.
  pose proof (DecimalFacts.nzhead_nonzero (N.to_uint n)) as Hnz.
  destruct (Decimal.nzhead (N.to_uint n)); cbn; try exact I; try reflexivity.
  exfalso. now apply (Hnz u).
Qed.

Lemma normal_head d :
  normal_uint d -> exists c tl, digits_of_uint d = c :: tl /\ is_digit c = true.
Proof.
  destruct d; cbn; intros H; try contradiction; eexists _, _; split; reflexivity.
Qed.

Lemma match_integer_digits d rest :
  normal_uint d ->
  match rest with [] => True | c :: _ => is_digit c = false end ->
  match_integer (digits_of_uint d ++ rest) = Some (digits_of_uint d, rest).
Proof.
  intros Hd Hrest.
  destruct d; cbn in Hd; try contradiction;
    try (subst; reflexivity);
    cbn [digits_of_uint app match_integer];
    rewrite (@span_digits_app _ rest (digits_are_digits d) Hrest); reflexivity.
Qed.

Lemma delimited_facts rest :
  delimited rest ->
  match rest with [] => True | c :: _ => is_digit c = false end
  /\ starts_fraction rest = false /\ starts_exponent rest = false.
Proof.
  destruct rest as [|c [|d r]]; cbn; intros H; repeat split;
    destruct H as [->| ->]; reflexivity.
Qed.

Lemma is_digit_range c : is_digit c = true -> (48 <= c <= 57)%N.
Proof.
  unfold is_digit. intros H. apply andb_true_iff in H as [H1 H2].
  apply N.leb_le in H1, H2. lia.
Qed.

Lemma match_number_nonneg n rest :
  delimited rest ->
  match_number (str_of_N n ++ rest) = Some (Integer (Z.of_N n), rest).
Proof.
  intros Hrest. destruct (delimited_facts rest Hrest) as (Hd & Hf & He).
  unfold str_of_N.
  destruct (@normal_head _ (to_uint_normal n)) as (c & tl & Hhead & Hc).
  unfold match_number.
  destruct (digits_of_uint (N.to_uint n) ++ rest) as [|c' s'] eqn:E.
  { rewrite Hhead in E. discriminate E. }
  assert (c' = c) by (rewrite Hhead in E; now injection E). subst c'.
  assert (Hne : N.eqb c 45 = false).
  { apply N.eqb_neq. apply is_digit_range in Hc. lia. }
  rewrite Hne, <- E, (@match_integer_digits _ rest (to_uint_normal n) Hd), Hf, He.
  cbn [orb]. now rewrite uint_of_digits_of_uint, DecimalN.Unsigned.of_to.
Qed.

Lemma match_number_encoded z rest :
  delimited rest ->
  match_number (str_of_Z z ++ rest) = Some (Integer z, rest).
Proof.
  intros Hrest. destruct z as [|p|p].
  - exact (match_number_nonneg 0 rest Hrest).
  - exact (match_number_nonneg (Npos p) rest Hrest).
  - destruct (delimited_facts rest Hrest) as (Hd & Hf & He).
    unfold str_of_Z, str_of_N, match_number. cbn [app N.eqb Pos.eqb].
    rewrite (@match_integer_digits _ rest (to_uint_normal (Npos p)) Hd), Hf, He.
    cbn [orb]. now rewrite uint_of_digits_of_uint, DecimalN.Unsigned.of_to.
Qed.

(** The first character of an encoded number: a minus sign or a digit. *)
Lemma str_of_Z_head z :
  exists c tl, str_of_Z z = c :: tl /\ (c = 45%N \/ is_digit c = true).
Proof.
  destruct z as [|p|p].
  - exists 48%N, []. split; [reflexivity | now right].
  - destruct (@normal_head _ (to_uint_normal (Npos p))) as (c & tl & H & Hc).
    exists c, tl. split; [exact H | now right].
  - eexists _, _. split; [reflexivity | now left].
Qed.

(** *** The unfolding equations of the decoder *)

Lemma scan_once_string f s :
  scan_once (S f) (dquote :: s)
  = match scanstring s with
    | Some (x, r) => Some (VStr x, r)
    | None => None
    end.
Proof. reflexivity. Qed.

Lemma scan_once_array f s :
  scan_once (S f) (91%N :: s)
  = match skip_ws s with
    | c1 :: r1 =>
        if N.eqb c1 93 then Some (VList [], r1)
        else match JSONArray f (c1 :: r1) [] with
             | Some (values, r) => Some (VList values, r)
             | None => None
             end
    | [] => None
    end.
Proof. reflexivity. Qed.

Lemma scan_once_object f s :
  scan_once (S f) (123%N :: s)
  = match skip_ws s with
    | c1 :: r1 =>
        if N.eqb c1 125 then Some (VDict [], r1)
        else match JSONObject f (c1 :: r1) [] with
             | Some (pairs, r) => Some (VDict (dict_of_pairs pairs), r)
             | None => None
             end
    | [] => None
    end.
Proof. reflexivity. Qed.

Lemma JSONArray_step f s values :
  JSONArray (S f) s values
  = match scan_once f s with
    | Some (v, r) =>
        match skip_ws r with
        | c :: r1 =>
            if N.eqb c 93 then Some (values ++ [v], r1)
            else if N.eqb c 44 then JSONArray f (skip_ws r1) (values ++ [v])
            else None
        | [] => None
        end
    | None => None
    end.
Proof. reflexivity. Qed.

Lemma JSONObject_step f s pairs :
  JSONObject (S f) (dquote :: s) pairs
  = match scanstring s with
    | Some (key, r) =>
        match skip_ws r with
        | colon :: r1 =>
            if N.eqb colon 58 then
              match scan_once f (skip_ws r1) with
              | Some (v, r2) =>
                  match skip_ws r2 with
                  | c :: r3 =>
                      if N.eqb c 125 then Some (pairs ++ [(key, v)], r3)
                      else if N.eqb c 44 then
                        JSONObject f (skip_ws r3) (pairs ++ [(key, v)])
                      else None
                  | [] => None
                  end
              | None => None
              end
            else None
        | [] => None
        end
    | None => None
    end.
Proof. reflexivity. Qed.

Lemma scan_once_number f (c : char) (s : str) :
  c = 45%N \/ is_digit c = true ->
  scan_once (S f) (c :: s)
  = match match_number (c :: s) with
    | Some (Integer z, r) => Some (VInt z, r)
    | _ => None
    end.
Proof.
  intros Hc.
  assert (H : N.eqb c dquote = false /\ N.eqb c 123 = false /\ N.eqb c 91 = false
              /\ N.eqb c 110 = false /\ N.eqb c 116 = false /\ N.eqb c 102 = false).
  { destruct Hc as [->|Hc]; [repeat split|].
    apply is_digit_range in Hc. repeat split; apply N.eqb_neq; unfold dquote; lia. }
  destruct H as (H1 & H2 & H3 & H4 & H5 & H6).
  cbn [scan_once]. rewrite H1, H2, H3.
  change (lit "null") with (110%N :: lit "ull").
  change (lit "true") with (116%N :: lit "rue").
  change (lit "false") with (102%N :: lit "alse").
  cbn [startswith]. rewrite H4, H5, H6. reflexivity.
Qed.

(** *** Values *)

Lemma is_ws_digit c : is_digit c = true -> is_ws c = false /\ N.eqb c 93 = false.
Proof.
  intros H. apply is_digit_range in H. unfold is_ws.
  assert (H1 : N.eqb c 32 = false) by (apply N.eqb_neq; lia).
  assert (H2 : N.eqb c 9 = false) by (apply N.eqb_neq; lia).
  assert (H3 : N.eqb c 10 = false) by (apply N.eqb_neq; lia).
  assert (H4 : N.eqb c 13 = false) by (apply N.eqb_neq; lia).
  rewrite H1, H2, H3, H4. split; [reflexivity|]. apply N.eqb_neq. lia.
Qed.

(** The text of a value starts with a character that is neither white
    space nor a closing bracket. *)
Lemma iterencode_head v lvl :
  exists c tl, iterencode v lvl = c :: tl /\ is_ws c = false /\ N.eqb c 93 = false.
Proof.
  destruct v as [| [|] | z | s | l | l | d].
  - exists 110%N, (lit "ull"). repeat split.
  - exists 116%N, (lit "rue"). repeat split.
  - exists 102%N, (lit "alse"). repeat split.
  - destruct (str_of_Z_head z) as (c & tl & H & Hc).
    exists c, tl. split; [exact H|].
    destruct Hc as [->|Hc]; [split; reflexivity | now apply is_ws_digit].
  - eexists dquote, _. repeat split.
  - destruct l as [|x l].
    + exists 91%N, [93%N]. repeat split.
    + rewrite iterencode_tuple, iterencode_list. eexists 91%N, _. repeat split.
  - destruct l as [|x l].
    + exists 91%N, [93%N]. repeat split.
    + rewrite iterencode_list. eexists 91%N, _. repeat split.
  - destruct d as [|kv d].
    + exists 123%N, [125%N]. repeat split.
    + rewrite iterencode_dict. eexists 123%N, _. repeat split.
Qed.

Lemma skip_ws_value v lvl rest :
  skip_ws (iterencode v lvl ++ rest) = iterencode v lvl ++ rest.
Proof.
  destruct (iterencode_head v lvl) as (c & tl & E & Hws & _).
  rewrite E. cbn [app]. now apply skip_ws_stop.
Qed.

Lemma encode_items_next lvl y items tail :
  encode_items lvl (y :: items) false ++ tail
  = 44%N :: newline_indent lvl ++ iterencode y lvl ++ encode_items lvl items false ++ tail.
Proof. cbn [encode_items]. rewrite <- !app_assoc. reflexivity. Qed.

(** The loop of [JSONArray] reads back the items of an array. *)
Lemma JSONArray_items lvl rest items : forall x acc f,
  Forall round_trips (x :: items) ->
  Forall (fun y => well_formed y = true) (x :: items) ->
  fold_right (fun y n => S (vsize y + n)) 0 (x :: items) <= f ->
  JSONArray f (iterencode x (S lvl) ++ encode_items (S lvl) items false
               ++ newline_indent lvl ++ 93%N :: rest) acc
  = Some (acc ++ map as_json (x :: items), rest).
Proof.
  induction items as [|y items IH]; intros x acc f HP Hwf Hf;
    (destruct f as [|f]; [cbn in Hf; lia|]);
    inversion HP as [|x0 l0 Hx HPitems]; subst;
    inversion Hwf as [|x1 l1 Hwx Hwitems]; subst;
    cbn [fold_right] in Hf; rewrite JSONArray_step.
  - cbn [encode_items app].
    rewrite (Hx (S lvl) f _ Hwx) by (try lia; right; reflexivity).
    rewrite skip_ws_indent. reflexivity.
  - rewrite encode_items_next.
    rewrite (Hx (S lvl) f _ Hwx) by (try lia; left; reflexivity).
    rewrite skip_ws_stop by reflexivity.
    change (N.eqb 44 93) with false. change (N.eqb 44 44) with true. cbv iota.
    rewrite skip_ws_indent, skip_ws_value.
    rewrite (IH y (acc ++ [as_json x]) f HPitems Hwitems) by (cbn [fold_right]; lia).
    now rewrite <- app_assoc.
Qed.

Lemma round_trips_list l : Forall round_trips l -> round_trips (VList l).
Proof.
  intros HP lvl fuel rest Hwf Hf Hrest.
  destruct fuel as [|f]; [cbn in Hf; lia|].
  destruct l as [|x l]; [reflexivity|].
  rewrite iterencode_list.
  replace ((lit "[" ++ newline_indent (S lvl) ++ encode_items (S lvl) (x :: l) true
            ++ newline_indent lvl ++ lit "]") ++ rest)
    with (91%N :: newline_indent (S lvl)
          ++ (iterencode x (S lvl) ++ encode_items (S lvl) l false
              ++ newline_indent lvl ++ 93%N :: rest))
    by (cbn [encode_items]; rewrite <- !app_assoc; reflexivity).
  rewrite scan_once_array, skip_ws_indent, skip_ws_value.
  destruct (iterencode_head x (S lvl)) as (c & tl & E & _ & H93).
  assert (Etext : forall T, iterencode x (S lvl) ++ T = c :: (tl ++ T))
    by (intros T; now rewrite E).
  rewrite Etext, H93, <- Etext.
  rewrite vsize_list in Hf.
  rewrite (@JSONArray_items lvl rest l x [] f HP (@well_formed_list (x :: l) Hwf))
    by lia.
  reflexivity.
Qed.

(** *** Dictionaries *)

Lemma str_eqb_sym a b : str_eqb a b = str_eqb b a.
Proof.
  destruct (str_eqb a b) eqn:E.
  - apply str_eqb_eq in E. subst. symmetry. apply str_eqb_refl.
  - symmetry. apply str_eqb_neq. apply str_eqb_neq in E. congruence.
Qed.

Lemma alist_set_fresh {A} (d : list (str * A)) k v :
  str_in k (map fst d) = false -> alist_set d k v = d ++ [(k, v)].
Proof.
  induction d as [|[k' v'] d IH]; [reflexivity|].
  cbn [map fst str_in existsb alist_set app]. intros H.
  apply orb_false_iff in H as [H1 H2].
  rewrite str_eqb_sym, H1. f_equal. now apply IH.
Qed.

Lemma keys_unique_fresh a k b :
  keys_unique (a ++ k :: b) = true -> str_in k a = false.
Proof.
  induction a as [|x a IH]; [reflexivity|].
  cbn [app keys_unique str_in existsb]. intros H.
  apply andb_true_iff in H as [H1 H2].
  apply negb_true_iff in H1. unfold str_in in H1.
  rewrite existsb_app in H1. apply orb_false_iff in H1 as [_ H1].
  cbn [existsb] in H1. apply orb_false_iff in H1 as [H1 _].
  rewrite str_eqb_sym, H1. now apply IH.
Qed.

(** [dict(pairs)] keeps a list of pairs with distinct keys as it is. *)
Lemma dict_of_pairs_app l : forall acc,
  keys_unique (map fst (acc ++ l)) = true ->
  fold_left (fun d kv => dict_set d (fst kv) (snd kv)) l acc = acc ++ l.
Proof.
  induction l as [|[k v] l IH]; intros acc H.
  - now rewrite app_nil_r.
  - cbn [fold_left fst snd]. unfold dict_set at 2.
    rewrite alist_set_fresh.
    + rewrite IH; rewrite <- app_assoc; [reflexivity | exact H].
    + rewrite map_app in H. cbn [map fst] in H.
      now apply keys_unique_fresh in H.
Qed.

Lemma dict_of_pairs_unique l :
  keys_unique (map fst l) = true -> dict_of_pairs l = l.
Proof. intros H. unfold dict_of_pairs. now rewrite dict_of_pairs_app. Qed.

Lemma encode_pairs_next lvl k v d tail :
  encode_pairs lvl ((k, v) :: d) false ++ tail
  = 44%N :: newline_indent lvl ++ encode_basestring k ++ lit ": "
    ++ iterencode v lvl ++ encode_pairs lvl d false ++ tail.
Proof. cbn [encode_pairs]. rewrite <- !app_assoc. reflexivity. Qed.

Lemma skip_ws_space s : skip_ws (space :: s) = skip_ws s.
Proof. reflexivity. Qed.

Lemma skip_ws_key k tail : skip_ws (encode_basestring k ++ tail) = encode_basestring k ++ tail.
Proof. reflexivity. Qed.

(** The loop of [JSONObject] reads back the pairs of an object. *)
Lemma JSONObject_pairs lvl rest d : forall k v acc f,
  Forall (fun kv => round_trips (snd kv)) ((k, v) :: d) ->
  Forall (fun kv => well_formed (snd kv) = true) ((k, v) :: d) ->
  fold_right (fun kv n => S (vsize (snd kv) + n)) 0 ((k, v) :: d) <= f ->
  JSONObject f (encode_basestring k ++ lit ": " ++ iterencode v (S lvl)
                ++ encode_pairs (S lvl) d false
                ++ newline_indent lvl ++ 125%N :: rest) acc
  = Some (acc ++ map (fun kv => (fst kv, as_json (snd kv))) ((k, v) :: d), rest).
Proof.
  induction d as [|[k' v'] d IH]; intros k v acc f HP Hwf Hf;
    (destruct f as [|f]; [cbn in Hf; lia|]);
    inversion HP as [|x0 l0 Hv HPrest]; subst;
    inversion Hwf as [|x1 l1 Hwv Hwrest]; subst;
    cbn [fold_right snd] in Hf, Hv, Hwv;
    rewrite encode_basestring_app, JSONObject_step, scanstring_encoded;
    change (lit ": ") with [58%N; space]; cbn [app];
    rewrite skip_ws_stop by reflexivity;
    change (N.eqb 58 58) with true; cbv iota;
    rewrite skip_ws_space, skip_ws_value.
  - cbn [encode_pairs app].
    rewrite (Hv (S lvl) f _ Hwv) by (try lia; right; reflexivity).
    rewrite skip_ws_indent. reflexivity.
  - rewrite encode_pairs_next.
    rewrite (Hv (S lvl) f _ Hwv) by (try lia; left; reflexivity).
    rewrite skip_ws_stop by reflexivity.
    change (N.eqb 44 125) with false. change (N.eqb 44 44) with true. cbv iota.
    rewrite skip_ws_indent.
    rewrite skip_ws_key.
    rewrite (IH k' v' (acc ++ [(k, as_json v)]) f HPrest Hwrest)
      by (cbn [fold_right snd]; lia).
    now rewrite <- app_assoc.
Qed.

Lemma round_trips_dict d :
  Forall (fun kv => round_trips (snd kv)) d -> round_trips (VDict d).
Proof.
  intros HP lvl fuel rest Hwf Hf Hrest.
  destruct fuel as [|f]; [cbn in Hf; lia|].
  destruct d as [|[k v] d]; [reflexivity|].
  destruct (well_formed_dict _ Hwf) as [Hkeys Hwfs].
  rewrite iterencode_dict.
  replace ((lit "{" ++ newline_indent (S lvl) ++ encode_pairs (S lvl) ((k, v) :: d) true
            ++ newline_indent lvl ++ lit "}") ++ rest)
    with (123%N :: newline_indent (S lvl)
          ++ (encode_basestring k ++ lit ": " ++ iterencode v (S lvl)
              ++ encode_pairs (S lvl) d false
              ++ newline_indent lvl ++ 125%N :: rest))
    by (cbn [encode_pairs]; rewrite <- !app_assoc; reflexivity).
  rewrite scan_once_object, skip_ws_indent, skip_ws_key.
  rewrite encode_basestring_app.
  change (N.eqb dquote 125) with false. cbv iota.
  rewrite <- encode_basestring_app.
  rewrite vsize_dict in Hf.
  rewrite (@JSONObject_pairs lvl rest d k v [] f HP Hwfs) by lia.
  cbn [app]. rewrite as_json_dict. rewrite dict_of_pairs_unique; [reflexivity|].
  rewrite map_map. cbn [fst]. exact Hkeys.
Qed.

(** Every value is read back as its JSON image. *)
Lemma iterencode_round_trips v : round_trips v.
Proof.
  induction v using value_induction.
  - intros lvl [|f] rest _ Hf _; [cbn in Hf; lia | reflexivity].
  - intros lvl [|f] rest _ Hf _; [cbn in Hf; lia | destruct b; reflexivity].
  - intros lvl [|f] rest _ Hf Hrest; [cbn in Hf; lia|].
    cbn [iterencode as_json].
    destruct (str_of_Z_head z) as (c & tl & E & Hc).
    pose proof (match_number_encoded z rest Hrest) as Hm.
    revert Hm. rewrite E. cbn [app]. intros Hm.
    rewrite scan_once_number by exact Hc. now rewrite Hm.
  - intros lvl [|f] rest _ Hf _; [cbn in Hf; lia|].
    cbn [iterencode as_json].
    rewrite encode_basestring_app, scan_once_string, scanstring_encoded. reflexivity.
  - intros lvl fuel rest Hwf Hf Hrest.
    exact (@round_trips_list l H lvl fuel rest Hwf Hf Hrest).
  - now apply round_trips_list.
  - now apply round_trips_dict.
Qed.

(** The decoder's fuel: a value is no larger than the text written for
    it. *)
Lemma sizes_le_encode_items lvl l :
  Forall (fun x => forall k, vsize x <= length (iterencode x k)) l ->
  fold_right (fun x n => S (vsize x + n)) 0 l <= length (encode_items lvl l false).
Proof.
  induction 1 as [|x l Hx Hl IH]; [apply le_n|].
  cbn [fold_right encode_items]. rewrite !length_app.
  change (length (lit ",")) with 1. specialize (Hx lvl). lia.
Qed.

Lemma sizes_le_encode_pairs lvl d :
  Forall (fun kv => forall k, vsize (snd kv) <= length (iterencode (snd kv) k)) d ->
  fold_right (fun kv n => S (vsize (snd kv) + n)) 0 d
  <= length (encode_pairs lvl d false).
Proof.
  induction 1 as [|[k x] d Hx Hd IH]; [apply le_n|].
  cbn [fold_right encode_pairs snd] in *. rewrite !length_app.
  change (length (lit ",")) with 1. specialize (Hx lvl). lia.
Qed.

Lemma vsize_le_length v : forall lvl, vsize v <= length (iterencode v lvl).
Proof.
  assert (Hlist : forall l,
             Forall (fun x => forall k, vsize x <= length (iterencode x k)) l ->
             forall lvl, vsize (VList l) <= length (iterencode (VList l) lvl)).
  { intros l Hl lvl. destruct l as [|x l]; [cbv; lia|].
    rewrite vsize_list, iterencode_list. cbn [fold_right encode_items].
    inversion Hl as [|x0 l0 Hx Hrest]; subst.
    pose proof (sizes_le_encode_items (S lvl) Hrest) as Hs.
    rewrite !length_app. change (length (lit "[")) with 1.
    cbn [app length]. rewrite ?length_app.
    specialize (Hx (S lvl)). unfold newline_indent. cbn [length]. lia. }
  induction v using value_induction; intros lvl.
  - cbv; lia.
  - destruct b; cbv; lia.
  - cbn [vsize iterencode]. destruct (str_of_Z_head z) as (c & tl & E & _).
    rewrite E. cbn [length]. lia.
  - cbn [vsize iterencode]. unfold encode_basestring. cbn [length]. lia.
  - exact (Hlist l H lvl).
  - exact (Hlist l H lvl).
  - destruct d as [|[k x] d]; [cbv; lia|].
    rewrite vsize_dict, iterencode_dict. cbn [fold_right encode_pairs snd].
    inversion H as [|x0 l0 Hx Hrest]; subst. cbn [snd] in Hx.
    pose proof (sizes_le_encode_pairs (S lvl) Hrest) as Hs.
    rewrite !length_app. change (length (lit "{")) with 1.
    cbn [app length]. rewrite ?length_app.
    specialize (Hx (S lvl)). unfold newline_indent. cbn [length]. lia.
Qed.

(** Without tuples the JSON image of a value is the value. *)
Lemma as_json_tuple_free v : tuple_free v = true -> as_json v = v.
Proof.
  induction v using value_induction; intros Ht; try reflexivity.
  - discriminate Ht.
  - rewrite as_json_list. f_equal.
    cbn [tuple_free] in Ht. induction H as [|x l Hx Hl IH]; [reflexivity|].
    apply andb_true_iff in Ht as [Ht1 Ht2].
    cbn [map]. now rewrite Hx, IH.
  - rewrite as_json_dict. f_equal.
    cbn [tuple_free] in Ht. induction H as [|[k x] d Hx Hd IH]; [reflexivity|].
    apply andb_true_iff in Ht as [Ht1 Ht2].
    cbn [map fst snd] in *. now rewrite Hx, IH.
Qed.

(** [json.loads(json.dumps(v))] for any value. *)
Lemma json_loads_iterencode v :
  well_formed v = true -> json_loads (iterencode v 0) = Some (as_json v).
Proof.
  intros Hwf. unfold json_loads.
  pose proof (skip_ws_value v 0 []) as Hs. rewrite app_nil_r in Hs. rewrite Hs.
  assert (Hfuel : vsize v <= S (length (iterencode v 0))).
  { pose proof (vsize_le_length v 0). lia. }
  pose proof (@iterencode_round_trips v 0 _ [] Hwf Hfuel I) as Hr.
  rewrite app_nil_r in Hr. now rewrite Hr.
Qed.

Lemma well_formed_results results :
  Forall (fun r => well_formed (VDict r) = true) results ->
  well_formed (VList (map VDict results)) = true.
Proof.
  induction 1 as [|r results Hr Hrest IH]; [reflexivity|].
  cbn [well_formed map] in *. now rewrite Hr, IH.
Qed.

(** [json.loads] of what [json.dump] writes for a list of results. *)
Lemma json_loads_dumps results :
  Forall (fun r => well_formed (VDict r) = true) results ->
  json_loads (json_dumps results)
  = Some (VList (map (fun r => as_json (VDict r)) results)).
Proof.
  intros H. unfold json_dumps.
  rewrite (json_loads_iterencode _ (well_formed_results H)).
  now rewrite as_json_list, map_map.
Qed.

(** A code point outside ASCII is written as it is. *)
Lemma escape_char_non_ascii c : (128 <= c)%N -> escape_char c = [c].
Proof.
  intros H. unfold escape_char, dquote, backslash.
  repeat match goal with
         | |- context [N.eqb c ?k] =>
             replace (N.eqb c k) with false by (symmetry; apply N.eqb_neq; lia)
         end.
  replace (N.ltb c 32) with false by (symmetry; apply N.ltb_ge; lia).
  reflexivity.
Qed.

Lemma lookup_parent root q n :
  lookup root q = Some n -> q = [] \/ parent_is_dir root q = true.
Proof.
  intros H. destruct q as [|c0 q0]; [now left | right].
  assert (Hq : c0 :: q0 <> []) by discriminate.
  unfold parent_is_dir.
  rewrite (app_removelast_last [] Hq), lookup_app in H.
  match type of H with
  | match ?x with _ => _ end = _ =>
      match goal with
      | |- match ?y with _ => _ end = _ => change y with x; destruct x as [[content|es]|]
      end
  end; [simpl in H; discriminate H | reflexivity | discriminate H].
Qed.

(** The chunks of [_iterencode], put together, are the text. *)
Lemma chunk_items_concat lvl l buf :
  Forall (fun x => forall lvl, concat (iterencode_chunks x lvl) = iterencode x lvl) l ->
  concat
    ((fix items (l : list value) (buf : str) : list str :=
        match l with
        | [] => []
        | x :: l' =>
            match x with
            | VTuple _ | VList _ | VDict _ => buf :: iterencode_chunks x lvl
            | _ => [buf ++ iterencode x lvl]
            end
            ++ items l' (lit "," ++ newline_indent lvl)
        end) l buf)
  = match l with
    | [] => []
    | x :: l' => buf ++ iterencode x lvl ++ encode_items lvl l' false
    end.
Proof.
  intros H. revert buf. induction H as [|x l Hx Hl IH]; intros buf; [reflexivity|].
  rewrite concat_app, IH.
  assert (E : concat match x with
                     | VTuple _ | VList _ | VDict _ => buf :: iterencode_chunks x lvl
                     | _ => [buf ++ iterencode x lvl]
                     end
              = buf ++ iterencode x lvl).
  { destruct x; cbn [concat]; rewrite ?app_nil_r, ?Hx; reflexivity. }
  rewrite E, <- app_assoc. do 2 f_equal.
  destruct l as [|y l']; [reflexivity|].
  cbn [encode_items]. now rewrite <- app_assoc.
Qed.

Lemma chunk_pairs_concat lvl d first :
  Forall (fun kv => forall lvl, concat (iterencode_chunks (snd kv) lvl)
                                = iterencode (snd kv) lvl) d ->
  concat
    ((fix items (l : list (str * value)) (first : bool) : list str :=
        match l with
        | [] => []
        | (k, v) :: l' =>
            (if first then [] else [lit "," ++ newline_indent lvl])
            ++ [encode_basestring k; lit ": "]
            ++ iterencode_chunks v lvl ++ items l' false
        end) d first)
  = encode_pairs lvl d first.
Proof.
  intros H. revert first. induction H as [|[k v] d Hv Hd IH]; intros first; [reflexivity|].
  cbn [snd] in Hv. cbn [encode_pairs].
  rewrite !concat_app, IH, Hv.
  destruct first; cbn [concat app]; rewrite ?app_nil_r, <- ?app_assoc; reflexivity.
Qed.

Lemma concat_iterencode_chunks o :
  forall lvl, concat (iterencode_chunks o lvl) = iterencode o lvl.
Proof.
  induction o as [| b | z | s | l IH | l IH | d IH] using value_induction; intros lvl.
  - reflexivity.
  - destruct b; reflexivity.
  - cbn [iterencode_chunks iterencode concat]. apply app_nil_r.
  - cbn [iterencode_chunks iterencode concat]. apply app_nil_r.
  - destruct l as [|x l]; [reflexivity|].
    rewrite iterencode_tuple, iterencode_list.
    cbn [iterencode_chunks]. rewrite concat_app, (chunk_items_concat (S lvl) _ IH).
    cbn [encode_items concat app]. now rewrite app_nil_r, <- !app_assoc.
  - destruct l as [|x l]; [reflexivity|].
    rewrite iterencode_list.
    cbn [iterencode_chunks]. rewrite concat_app, (chunk_items_concat (S lvl) _ IH).
    cbn [encode_items concat app]. now rewrite app_nil_r, <- !app_assoc.
  - destruct d as [|kv d]; [reflexivity|].
    rewrite iterencode_dict.
    cbn [iterencode_chunks]. rewrite !concat_app, (chunk_pairs_concat (S lvl) true IH).
    cbn [concat app]. now rewrite !app_nil_r, <- !app_assoc.
Qed.

Lemma concat_json_chunks results : concat (json_chunks results) = json_dumps results.
Proof. apply concat_iterencode_chunks. Qed.

(** When no chunk is refused, all of them are written. *)
Lemma encoded_prefix_all chunks :
  snd (encoded_prefix chunks) = None -> fst (encoded_prefix chunks) = chunks.
Proof.
  induction chunks as [|c cs IH]; [reflexivity|].
  cbn [encoded_prefix]. destruct (encodable c); [|discriminate].
  cbv zeta. cbn [fst snd]. intros H. now rewrite IH.
Qed.

Section JsonSinkProperties.

Variable repr_str : str -> str.

(** When the write returns, the file is there with the content. *)
Lemma write_file_returns p content failure w w' :
  write_file repr_str p content failure w = (Returns tt, w') ->
  failure = None /\ stat w' p = Some (File content).
Proof.
  unfold write_file, stat. intros H. cbv beta zeta in H.
  destruct (refusal w p) as [e|] eqn:Er; [discriminate H|].
  destruct (resolve w p) as [q| |] eqn:Hres; try discriminate H.
  assert (Hw : failure = None
               /\ w' = set_fs w (update (fs w) q (File content))
               /\ ~ is_dir_at (fs w) q
               /\ (q = [] \/ parent_is_dir (fs w) q = true)).
  { destruct (lookup (fs w) q) as [[old|es]|] eqn:Hl; try discriminate H.
    - destruct failure as [e|]; [discriminate H|].
      injection H as <-. split; [reflexivity|]. split; [reflexivity|]. split.
      + intros [es Hes]. rewrite Hes in Hl. discriminate Hl.
      + eapply lookup_parent. exact Hl.
    - destruct (parent_is_dir (fs w) q) eqn:Hp; [|discriminate H].
      destruct failure as [e|]; [discriminate H|].
      injection H as <-. split; [reflexivity|]. split; [reflexivity|].
      split; [|now right].
      intros [es Hes]. rewrite Hes in Hl. discriminate Hl. }
  destruct Hw as (-> & -> & Hnd & Hpar). split; [reflexivity|].
  unfold resolve in *. cbn [fs cwd refusal set_fs]. rewrite Er.
  rewrite (walk_update _ _ (File content) Hnd Hres).
  now apply lookup_update_same.
Qed.

(** When the chunks are written and the write returns, the file holds
    them all. *)
Lemma write_chunks_returns p chunks w w' :
  write_chunks repr_str p chunks w = (Returns tt, w') ->
  stat w' p = Some (File (concat chunks)).
Proof.
  unfold write_chunks. intros H.
  apply write_file_returns in H as [Hf H].
  destruct (snd (encoded_prefix chunks)) as [c|] eqn:Hs; [discriminate Hf|].
  now rewrite (encoded_prefix_all _ Hs) in H.
Qed.

(** C7, as amended.  When the JSON sink completes on a sequence of
    results (dictionaries with distinct keys), the destination file holds
    the text of [json.dump], and parsing that text back yields the
    sequence with every tuple turned into a list: each result comes back
    field for field, except that [image_size], a tuple in the result, is
    read back as a list of the same two numbers.  Results without tuples
    (the failed ones) come back equal.  Code points outside ASCII are
    written as they are. *)
Theorem json_sink_round_trip results output_path w w' :
  Forall (fun r => well_formed (VDict r) = true) results ->
  save_results repr_str results (lit "json") output_path w = (Returns tt, w') ->
  stat w' (json_destination output_path) = Some (File (json_dumps results))
  /\ json_loads (json_dumps results)
     = Some (VList (map (fun r => as_json (VDict r)) results))
  /\ (Forall (fun r => tuple_free (VDict r) = true) results ->
      json_loads (json_dumps results) = Some (VList (map VDict results)))
  /\ (forall c, (128 <= c)%N -> escape_char c = [c]).
Proof.
  intros Hwf Hrun.
  split; [|split; [|split]].
  - change (save_results repr_str results (lit "json") output_path w)
      with ((write_chunks repr_str (json_destination output_path) (json_chunks results) ;;
             logger_info (lit "Results saved to "
                          ++ str_of_Path (json_destination output_path))) w) in Hrun.
    unfold bind at 1 in Hrun.
    destruct (write_chunks repr_str (json_destination output_path) (json_chunks results) w)
      as [[[]|e] w1] eqn:Hw; [|discriminate Hrun].
    unfold logger_info, logger_log, modify in Hrun. injection Hrun as <-.
    apply write_chunks_returns in Hw. rewrite concat_json_chunks in Hw. exact Hw.
  - now apply json_loads_dumps.
  - intros Htf. rewrite (json_loads_dumps Hwf). do 2 f_equal.
    clear Hwf Hrun. induction Htf as [|r results Hr Hrest IH]; [reflexivity|].
    cbn [map]. now rewrite (as_json_tuple_free _ Hr), IH.
  - apply escape_char_non_ascii.
Qed.

End JsonSinkProperties.

(* ================================================================== *)
(** * The properties at concrete inputs *)
(* ================================================================== *)

(** C1 as stated fails: a name of 300 letters does not exist in the
    sample world, and the failed result for it carries the error with
    which the operating system refuses the name, not the file-not-found
    message. *)
Lemma over_long_name_is_not_reported_missing :
  stat Sample.world (Path_of_str Sample.long_name) = None
  /\ exists r w',
       extract_text_from_image Sample.repr_str Sample.decode Sample.convert_pixels
         Sample.ocr Sample.extractor (Path_of_str Sample.long_name) Sample.world
       = (Returns r, w')
       /\ dict_get r (lit "success") = Some (VBool false)
       /\ dict_get r (lit "error")
          = Some (VStr (lit "Error processing " ++ Sample.long_name
                        ++ lit ": [Errno 36] File name too long: "
                        ++ Sample.repr_str Sample.long_name))
       /\ dict_get r (lit "error")
          <> Some (VStr (lit "Error processing " ++ name (Path_of_str Sample.long_name)
                         ++ lit ": Image file not found: "
                         ++ str_of_Path (Path_of_str Sample.long_name))).
Proof.
  split; [vm_compute; reflexivity|].
  do 2 eexists. split; [vm_compute; reflexivity|].
  split; [vm_compute; reflexivity|].
  split; [vm_compute; reflexivity|].
  vm_compute. discriminate.
Qed.

(** C1 as amended, at two concrete inputs: [missing.png] is absent from
    the sample world, and the extractor returns the failed result that
    says so; the over-long name is refused, and the failed result carries
    the refusal. *)
Lemma missing_file_is_reported :
  (stat Sample.world (Path_of_str (lit "missing.png")) = None
   /\ exists r w',
        extract_text_from_image Sample.repr_str Sample.decode Sample.convert_pixels
          Sample.ocr Sample.extractor (Path_of_str (lit "missing.png")) Sample.world
        = (Returns r, w')
        /\ dict_get r (lit "success") = Some (VBool false)
        /\ dict_get r (lit "error")
           = Some (VStr (lit "Error processing " ++ name (Path_of_str (lit "missing.png"))
                         ++ lit ": Image file not found: "
                         ++ str_of_Path (Path_of_str (lit "missing.png")))))
  /\ (stat Sample.world (Path_of_str Sample.long_name) = None
      /\ exists r w',
           extract_text_from_image Sample.repr_str Sample.decode Sample.convert_pixels
             Sample.ocr Sample.extractor (Path_of_str Sample.long_name) Sample.world
           = (Returns r, w')
           /\ dict_get r (lit "success") = Some (VBool false)
           /\ dict_get r (lit "error")
              = Some (VStr (lit "Error processing " ++ name (Path_of_str Sample.long_name)
                            ++ lit ": [Errno 36] File name too long: "
                            ++ Sample.repr_str (str_of_Path (Path_of_str Sample.long_name))))).
Proof.
  split; (split; [vm_compute; reflexivity|]).
  - exact (proj2 (extract_text_from_image_never_raises Sample.repr_str Sample.decode
                    Sample.convert_pixels Sample.ocr Sample.extractor
                    (Path_of_str (lit "missing.png")) Sample.world) eq_refl).
  - exact (proj2 (extract_text_from_image_never_raises Sample.repr_str Sample.decode
                    Sample.convert_pixels Sample.ocr Sample.extractor
                    (Path_of_str Sample.long_name) Sample.world) eq_refl).
Defined.

(** C2 as stated fails: the blank image [b.jpg] gives a successful result
    with an empty text and no error, which is neither "text populated,
    error absent" nor "error populated, text empty, no success". *)
Lemma blank_image_fits_neither_alternative :
  exists r w',
    extract_text_from_image Sample.repr_str Sample.decode Sample.convert_pixels
      Sample.ocr Sample.extractor (Path_of_str (lit "b.jpg")) Sample.world
    = (Returns r, w')
    /\ dict_get r (lit "success") = Some (VBool true)
    /\ text_populated_error_absent r = false
    /\ error_populated_text_empty r = false.
Proof.
  do 2 eexists. split; [vm_compute; reflexivity|].
  repeat split.
Qed.

(** C10 at a concrete input: [b.jpg] is a greyscale image, and its
    result records the mode RGB. *)
Lemma greyscale_image_recorded_as_RGB :
  dict_get
    (successful_result (Path_of_str (lit "b.jpg"))
       {| size := (2, 3)%Z; mode := RGB; pixels := lit "  " |} [])
    (lit "success") = Some (VBool true)
  /\ dict_get
       (successful_result (Path_of_str (lit "b.jpg"))
          {| size := (2, 3)%Z; mode := RGB; pixels := lit "  " |} [])
       (lit "image_mode") = Some (VStr RGB).
Proof.
  split; [reflexivity|].
  apply (successful_result_mode_is_RGB Sample.repr_str Sample.decode
           Sample.convert_pixels Sample.ocr Sample.extractor
           (Path_of_str (lit "b.jpg")) Sample.world
           (w' := logged INFO (lit "Successfully extracted text from " ++ lit "b.jpg")
                    Sample.world)).
  - vm_compute. reflexivity.
  - reflexivity.
Defined.

(** C3 at a concrete input: the working directory of the sample world. *)
Lemma batch_over_sample_directory :
  exists images results w',
    find_images_in_directory Sample.extractor (Path_of_str (lit ".")) true Sample.world
    = (Returns images, Sample.world)
    /\ batch_extract_text Sample.repr_str Sample.decode Sample.convert_pixels Sample.ocr
         Sample.extractor (Path_of_str (lit ".")) Sample.world
       = (Returns results, w')
    /\ length results = length images
    /\ Forall2 (extraction_of Sample.repr_str Sample.decode Sample.convert_pixels
                  Sample.ocr Sample.extractor (fs Sample.world) (cwd Sample.world)
                  (refusal Sample.world))
               images results.
Proof.
  eapply (batch_returns_one_result_per_image Sample.repr_str Sample.decode
            Sample.convert_pixels Sample.ocr Sample.extractor
            (Path_of_str (lit ".")) Sample.world).
  vm_compute. reflexivity.
Defined.

(** C4 as stated fails: on a root that does not exist the locator
    returns the empty list; it does not raise. *)
Lemma locator_returns_on_missing_root :
  stat Sample.world (Path_of_str (lit "nowhere")) = None
  /\ find_images_in_directory Sample.extractor (Path_of_str (lit "nowhere")) true
       Sample.world
     = (Returns [], Sample.world).
Proof. split; vm_compute; reflexivity. Qed.

(** C4 as amended, at the same input and at a root whose name the
    operating system refuses. *)
Lemma missing_root_witness :
  (stat Sample.world (Path_of_str (lit "nowhere")) = None
   /\ find_images_in_directory Sample.extractor (Path_of_str (lit "nowhere")) true
        Sample.world
      = (Returns [], Sample.world)
   /\ batch_extract_text Sample.repr_str Sample.decode Sample.convert_pixels Sample.ocr
        Sample.extractor (Path_of_str (lit "nowhere")) Sample.world
      = (Raises (mkExn FileNotFoundError
                   (lit "Source path not found: "
                    ++ str_of_Path (Path_of_str (lit "nowhere")))), Sample.world))
  /\ (stat Sample.world (Path_of_str (repeat_char 97%N 300)) = None
      /\ (supported_formats Sample.extractor <> [] ->
          find_images_in_directory Sample.extractor (Path_of_str (repeat_char 97%N 300))
            true Sample.world
          = (Raises (mkExn (OtherException (lit "OSError"))
                       (lit "[Errno 36] File name too long: "
                        ++ Sample.repr_str (repeat_char 97%N 300))), Sample.world))
      /\ batch_extract_text Sample.repr_str Sample.decode Sample.convert_pixels
           Sample.ocr Sample.extractor (Path_of_str (repeat_char 97%N 300)) Sample.world
         = (Raises (mkExn (OtherException (lit "OSError"))
                      (lit "[Errno 36] File name too long: "
                       ++ Sample.repr_str (repeat_char 97%N 300))), Sample.world)).
Proof.
  split; (split; [vm_compute; reflexivity|]).
  - exact (proj2 (locator_on_missing_root Sample.repr_str Sample.decode
                    Sample.convert_pixels Sample.ocr Sample.extractor
                    (Path_of_str (lit "nowhere")) true Sample.world) eq_refl).
  - exact (proj2 (locator_on_missing_root Sample.repr_str Sample.decode
                    Sample.convert_pixels Sample.ocr Sample.extractor
                    (Path_of_str (repeat_char 97%N 300)) true Sample.world) eq_refl).
Defined.

(** C5 on the sample directory.  [photo.Jpg] exists, and the extractor
    accepts its suffix, yet the locator does not list it: the patterns
    cover the lower-case and the upper-case suffix only.  The hidden file
    [.jpg] is listed although pathlib gives it no suffix, so that the
    extractor rejects it as an unsupported format. *)
Theorem locator_misses_mixed_case_suffix :
  stat Sample.world (Path_of_str (lit "photo.Jpg")) = Some (File (lit "PMIXED"))
  /\ str_in (lower (suffix (Path_of_str (lit "photo.Jpg"))))
            (supported_formats Sample.extractor) = true
  /\ find_images_in_directory Sample.extractor (Path_of_str (lit ".")) true Sample.world
     = (Returns [ Path_of_str (lit ".jpg"); Path_of_str (lit "a.png");
                  Path_of_str (lit "b.jpg"); Path_of_str (lit "scans/a.JPG") ],
        Sample.world)
  /\ suffix (Path_of_str (lit ".jpg")) = []
  /\ (exists r w',
        extract_text_from_image Sample.repr_str Sample.decode Sample.convert_pixels
          Sample.ocr Sample.extractor (Path_of_str (lit "photo.Jpg")) Sample.world
        = (Returns r, w')
        /\ dict_get r (lit "success") = Some (VBool true)
        /\ dict_get r (lit "text") = Some (VStr (lit "MIXED"))).
Proof.
  repeat split; try (vm_compute; reflexivity).
  do 2 eexists. split; [vm_compute; reflexivity|]. split; reflexivity.
Qed.

(** C6 as stated fails: two successful results with non-empty text whose
    images share the stem [a] leave one file in the destination, holding
    the text of the second. *)
Lemma shared_stem_one_file :
  Forall (fun r => is_ExtractionResult r = true) Sample.same_stem
  /\ length (filter kept Sample.same_stem) = 2
  /\ exists w',
       save_results Sample.repr_str Sample.same_stem (lit "text") None Sample.world
       = (Returns tt, w')
       /\ stat w' (Path_of_str (lit "extracted_text"))
          = Some (Dir [(lit "a.txt", File (lit "WORLD"))]).
Proof.
  split; [repeat constructor|]. split; [reflexivity|].
  eexists. split; vm_compute; reflexivity.
Qed.

(** C6 as amended, on the same two results. *)
Lemma shared_stem_witness :
  exists w' q,
    save_results Sample.repr_str Sample.same_stem (lit "text") None Sample.world
    = (Returns tt, w')
    /\ resolve Sample.world (text_destination None) = Found q
    /\ resolve w' (text_destination None) = Found q
    /\ is_dir_at (fs w') q
    /\ (forall r, In r Sample.same_stem -> kept r = true ->
        exists t, lookup (fs w') (q ++ [text_file_name r]) = Some (File t))
    /\ (forall nm,
          lookup (fs w') (q ++ [nm])
          = match written Sample.same_stem nm with
            | Some t => Some (File t)
            | None => lookup (fs Sample.world) (q ++ [nm])
            end)
    /\ (forall nm t, written Sample.same_stem nm = Some t ->
        exists r, In r Sample.same_stem /\ kept r = true
                  /\ text_file_name r = nm /\ text_of r = t).
Proof.
  destruct (save_results Sample.repr_str Sample.same_stem (lit "text") None Sample.world)
    as [[[]|e] w'] eqn:E; [|vm_compute in E; discriminate E].
  destruct (@text_sink_files Sample.repr_str Sample.same_stem None Sample.world w')
    as (q & H).
  - repeat constructor.
  - exact E.
  - exists w', q. split; [reflexivity | exact H].
Defined.



(** C9 at a concrete input: the format ['xml']. *)
Lemma unknown_format_witness :
  save_results Sample.repr_str Sample.same_stem (lit "xml") None Sample.world
  = (Returns tt, Sample.world).
Proof.
  apply save_results_unknown_format; discriminate.
Defined.

(** C7 as stated fails: a successful result written by the JSON sink and
    parsed back differs from the original in [image_size], a tuple in the
    original and a list in what comes back. *)
Lemma image_size_comes_back_as_list :
  exists w' content,
    save_results Sample.repr_str [Sample.result_of (lit "a.png") (lit "HELLO")]
      (lit "json") None Sample.world
    = (Returns tt, w')
    /\ stat w' (Path_of_str (lit "extracted_text_results.json")) = Some (File content)
    /\ dict_get (Sample.result_of (lit "a.png") (lit "HELLO")) (lit "image_size")
       = Some (VTuple [VInt 640; VInt 480])
    /\ json_loads content
       = Some (VList [VDict (dict_set (Sample.result_of (lit "a.png") (lit "HELLO"))
                               (lit "image_size") (VList [VInt 640; VInt 480]))])
    /\ json_loads content
       <> Some (VList [VDict (Sample.result_of (lit "a.png") (lit "HELLO"))]).
Proof.
  do 2 eexists. split; [vm_compute; reflexivity|].
  split; [vm_compute; reflexivity|].
  split; [reflexivity|].
  split; [vm_compute; reflexivity|].
  vm_compute. discriminate.
Qed.

(** C7 as amended, on the two sample results. *)
Lemma json_sink_witness :
  exists w',
    save_results Sample.repr_str Sample.same_stem (lit "json") None Sample.world
    = (Returns tt, w')
    /\ stat w' (json_destination None) = Some (File (json_dumps Sample.same_stem))
    /\ json_loads (json_dumps Sample.same_stem)
       = Some (VList (map (fun r => as_json (VDict r)) Sample.same_stem))
    /\ (Forall (fun r => tuple_free (VDict r) = true) Sample.same_stem ->
        json_loads (json_dumps Sample.same_stem)
        = Some (VList (map VDict Sample.same_stem)))
    /\ (forall c, (128 <= c)%N -> escape_char c = [c]).
Proof.
  destruct (save_results Sample.repr_str Sample.same_stem (lit "json") None Sample.world)
    as [[[]|e] w'] eqn:E; [|vm_compute in E; discriminate E].
  exists w'. split; [reflexivity|].
  apply (@json_sink_round_trip Sample.repr_str Sample.same_stem None Sample.world w').
  - repeat constructor.
  - exact E.
Defined.
